(** * GPS_Extract: heuristic extraction of a coordinate pair from raw bytes

    A shallow embedding of [GPS_Extract.py]: the float scanner
    ([FLOAT_RE], [find_floats_in_bytes]), the pair finder
    ([find_coordinate_pairs]), the deduplication and selection loops of
    [main] and the text it writes.

    Conventions.
    - A byte buffer is a [list byte]; a [str] is a [string].
    - A Python [int] is a [Z].
    - A Python [float] is a binary64 value, represented by [spec_float]
      with precision 53 and maximal exponent 1024; arithmetic and
      comparisons are the IEEE 754 ones of [SpecFloat].
    - Library calls ([re], [float], [round], [sorted], format
      specifications, the file system) are given by their documented
      behaviour. *)

From Stdlib Require Import Strings.String Strings.Ascii Strings.Byte.
From Stdlib Require Import ZArith NArith List Bool Lia.
From Stdlib Require Import Sorted Permutation.
From Stdlib Require Import Floats.SpecFloat.
Import ListNotations.

Local Open Scope Z_scope.

(** ** Byte classes of the pattern *)

Module Bytes.

Definition code (b : byte) : N := Byte.to_N b.

Definition is_digit (b : byte) : bool :=
  (N.leb 48 (code b)) && (N.leb (code b) 57).

Definition is_sign (b : byte) : bool :=
  N.eqb (code b) 45 || N.eqb (code b) 43.

Definition is_dot (b : byte) : bool := N.eqb (code b) 46.

Definition is_exp (b : byte) : bool :=
  N.eqb (code b) 101 || N.eqb (code b) 69.

Definition is_underscore (b : byte) : bool := N.eqb (code b) 95.

Definition is_ascii (b : byte) : bool := N.ltb (code b) 128.

(** [str.isspace] on ASCII: space, and the controls 9 to 13, 28 to 31. *)
Definition is_space (b : byte) : bool :=
  N.eqb (code b) 32
  || (N.leb 9 (code b) && N.leb (code b) 13)
  || (N.leb 28 (code b) && N.leb (code b) 31).

Definition digit_value (b : byte) : Z := Z.of_N (code b) - 48.

Definition of_string (s : string) : list byte := list_byte_of_string s.

End Bytes.

Import Bytes.

(** ** A backtracking matcher for the fragment of [re] that [FLOAT_RE] uses *)

Module Re.

(** Patterns: a byte class, sequence, ordered alternation, greedy [?],
    and a greedy bounded or unbounded repetition of a byte class. *)
Inductive regex : Type :=
| Cls (p : byte -> bool)
| Seq (r1 r2 : regex)
| Alt (r1 r2 : regex)
| Opt (r : regex)
| Rep (p : byte -> bool) (lo : nat) (hi : option nat).

Definition may_take (hi : option nat) : bool :=
  match hi with Some O => false | _ => true end.

Definition or_else {A} (x : option A) (y : option A) : option A :=
  match x with Some _ => x | None => y end.

(** Greedy repetition: take one more byte when allowed and try the rest;
    on failure give back the byte and stop here, which is only allowed
    once the lower bound is met. *)
Fixpoint rep_greedy (p : byte -> bool) (lo : nat) (hi : option nat)
         (s : list byte) (k : list byte -> option (list byte))
  : option (list byte) :=
  let stop := match lo with O => k s | S _ => None end in
  match s with
  | c :: s' =>
      if p c && may_take hi
      then or_else (rep_greedy p (Nat.pred lo) (option_map Nat.pred hi) s' k) stop
      else stop
  | [] => stop
  end.

(** [bt r s k] runs [r] on [s] and hands the rest of the input to the
    continuation [k]; alternatives are tried in priority order and the
    first overall success wins.  The result is the input left after the
    match. *)
Fixpoint bt (r : regex) (s : list byte)
         (k : list byte -> option (list byte)) : option (list byte) :=
  match r with
  | Cls p =>
      match s with
      | c :: s' => if p c then k s' else None
      | [] => None
      end
  | Seq r1 r2 => bt r1 s (fun s1 => bt r2 s1 k)
  | Alt r1 r2 => or_else (bt r1 s k) (bt r2 s k)
  | Opt r1 => or_else (bt r1 s k) (k s)
  | Rep p lo hi => rep_greedy p lo hi s k
  end.

(** [match_at r s]: the bytes matched by [r] at the start of [s]. *)
Definition match_at (r : regex) (s : list byte) : option (list byte) :=
  match bt r s (fun rest => Some rest) with
  | Some rest => Some (firstn (length s - length rest)%nat s)
  | None => None
  end.

(** A match object: [start()] and [group(0)]. *)
Record rmatch : Type := { start : Z; group : list byte }.

(** [finditer]: leftmost matches, left to right, not overlapping.
    [skip] counts the bytes of the current position that still belong
    to the previous match.  An empty match is reported and the scan
    moves on by one byte. *)
Fixpoint scan (r : regex) (pos : Z) (skip : nat) (s : list byte)
  : list rmatch :=
  match skip, s with
  | S n, _ :: s' => scan r (pos + 1) n s'
  | S _, [] => []
  | O, [] =>
      match match_at r [] with
      | Some g => [ {| start := pos; group := g |} ]
      | None => []
      end
  | O, _ :: s' =>
      match match_at r s with
      | Some g =>
          {| start := pos; group := g |}
            :: scan r (pos + 1) (Nat.pred (length g)) s'
      | None => scan r (pos + 1) O s'
      end
  end.

Definition finditer (r : regex) (data : list byte) : list rmatch :=
  scan r 0 O data.

(** The language of a pattern, independent of the matching strategy. *)
Inductive rep_lang (p : byte -> bool) : nat -> option nat -> list byte -> Prop :=
| rep_nil hi : rep_lang p O hi []
| rep_cons lo hi c w :
    p c = true -> may_take hi = true ->
    rep_lang p (Nat.pred lo) (option_map Nat.pred hi) w ->
    rep_lang p lo hi (c :: w).

Inductive lang : regex -> list byte -> Prop :=
| lang_cls p c : p c = true -> lang (Cls p) [c]
| lang_seq r1 r2 w1 w2 : lang r1 w1 -> lang r2 w2 -> lang (Seq r1 r2) (w1 ++ w2)
| lang_alt_l r1 r2 w : lang r1 w -> lang (Alt r1 r2) w
| lang_alt_r r1 r2 w : lang r2 w -> lang (Alt r1 r2) w
| lang_opt_none r : lang (Opt r) []
| lang_opt_some r w : lang r w -> lang (Opt r) w
| lang_rep p lo hi w : rep_lang p lo hi w -> lang (Rep p lo hi) w.

End Re.

Import Re.

(** ** [FLOAT_RE]

    [[-+]?(?:\d{1,3}\.\d+|\d+\.\d{1,})(?:[eE][-+]?\d+)?] *)

Definition FLOAT_RE : regex :=
  Seq (Opt (Cls is_sign))
      (Seq (Alt (Seq (Rep is_digit 1 (Some 3%nat))
                     (Seq (Cls is_dot) (Rep is_digit 1 None)))
                (Seq (Rep is_digit 1 None)
                     (Seq (Cls is_dot) (Rep is_digit 1 None))))
           (Opt (Seq (Cls is_exp)
                     (Seq (Opt (Cls is_sign)) (Rep is_digit 1 None))))).

(** ** Binary64 values and the conversions of the Python runtime *)

Module PyFloat.

Definition float : Type := spec_float.

Definition prec : Z := 53.
Definition emax : Z := 1024.

Definition leb (x y : float) : bool := SFleb x y.
Definition eqb (x y : float) : bool := SFeqb x y.
Definition sub (x y : float) : float := SFsub prec emax x y.
Definition abs (x : float) : float := SFabs x.
Definition neg (x : float) : float := SFopp x.

Definition is_finite (x : float) : bool :=
  match x with
  | S754_zero _ | S754_finite _ _ _ => true
  | _ => false
  end.

(** The binary64 value nearest to [(-1)^s * m * 10^e] (ties to even):
    what a decimal literal denotes, in the source text and in [float]. *)
Definition of_decimal (s : bool) (m : Z) (e : Z) : float :=
  match m with
  | Zpos p =>
      if 0 <=? e
      then binary_round prec emax s (Z.to_pos (Zpos p * 10 ^ e)) 0
      else SFdiv prec emax (S754_finite s p 0)
                 (S754_finite false (Z.to_pos (10 ^ (- e))) 0)
  | _ => S754_zero s
  end.

(** *** [float(str)] *)

Fixpoint lstrip (s : list byte) : list byte :=
  match s with
  | c :: s' => if is_space c then lstrip s' else s
  | [] => []
  end.

Definition strip (s : list byte) : list byte :=
  rev (lstrip (rev (lstrip s))).

(** The digits after the first one of a [digitpart]: [(["_"] digit)*]. *)
Fixpoint digits_tail (s : list byte) : list byte * list byte :=
  match s with
  | c :: s' =>
      if is_digit c
      then let (ds, r) := digits_tail s' in (c :: ds, r)
      else if is_underscore c
           then match s' with
                | d :: s'' =>
                    if is_digit d
                    then let (ds, r) := digits_tail s'' in (d :: ds, r)
                    else ([], s)
                | [] => ([], s)
                end
           else ([], s)
  | [] => ([], [])
  end.

(** [digitpart ::= digit (["_"] digit)*]: the digits and the rest. *)
Definition digitpart (s : list byte) : option (list byte * list byte) :=
  match s with
  | c :: s' =>
      if is_digit c
      then let (ds, r) := digits_tail s' in Some (c :: ds, r)
      else None
  | [] => None
  end.

(** [number ::= [digitpart] "." digitpart | digitpart ["."]]:
    integer digits, fraction digits and the rest. *)
Definition number (s : list byte)
  : option (list byte * list byte * list byte) :=
  match digitpart s with
  | Some (ip, r) =>
      match r with
      | c :: r' =>
          if is_dot c
          then match digitpart r' with
               | Some (fp, r'') => Some (ip, fp, r'')
               | None => Some (ip, [], r')
               end
          else Some (ip, [], r)
      | [] => Some (ip, [], [])
      end
  | None =>
      match s with
      | c :: r' =>
          if is_dot c
          then match digitpart r' with
               | Some (fp, r'') => Some ([], fp, r'')
               | None => None
               end
          else None
      | [] => None
      end
  end.

Definition digits_value (ds : list byte) : Z :=
  fold_left (fun acc d => acc * 10 + digit_value d) ds 0.

Definition take_sign (s : list byte) : bool * list byte :=
  match s with
  | c :: s' =>
      if N.eqb (code c) 45 then (true, s')
      else if N.eqb (code c) 43 then (false, s')
      else (false, s)
  | [] => (false, [])
  end.

(** [exponent ::= ("e" | "E") [sign] digitpart]; when there is none the
    exponent is 0 and nothing is consumed. *)
Definition exponent (s : list byte) : Z * list byte :=
  match s with
  | c :: s' =>
      if is_exp c
      then let (sg, s1) := take_sign s' in
           match digitpart s1 with
           | Some (ds, r) =>
               ((if sg then - digits_value ds else digits_value ds), r)
           | None => (0, s)
           end
      else (0, s)
  | [] => (0, [])
  end.

Definition lower (b : byte) : N :=
  if N.leb 65 (code b) && N.leb (code b) 90 then (code b + 32)%N else code b.

Definition is_word (w : list N) (s : list byte) : bool :=
  if list_eq_dec N.eq_dec (map lower s) w then true else false.

Definition word_inf : list N := [105; 110; 102]%N.
Definition word_infinity : list N := [105; 110; 102; 105; 110; 105; 116; 121]%N.
Definition word_nan : list N := [110; 97; 110]%N.

(** [float(s)] for an ASCII [s]: [None] stands for [ValueError]. *)
Definition of_str (s : list byte) : option float :=
  let (sg, body) := take_sign (strip s) in
  if is_word word_inf body || is_word word_infinity body
  then Some (S754_infinity sg)
  else if is_word word_nan body
  then Some S754_nan
  else
    match number body with
    | Some (ip, fp, r) =>
        match exponent r with
        | (ex, []) =>
            Some (of_decimal sg (digits_value (ip ++ fp))
                             (ex - Z.of_nat (length fp)))
        | (_, _ :: _) => None
        end
    | None => None
    end.

(** [bytes.decode('ascii')]: [None] stands for [UnicodeDecodeError]. *)
Definition decode_ascii (b : list byte) : option (list byte) :=
  if forallb is_ascii b then Some b else None.

(** *** Rounding to decimal places: [round(x, nd)] and [format(x, '.ndf')] *)

(** The integer nearest to [m * 2^e * 10^nd], ties to even. *)
Definition scaled (m : positive) (e : Z) (nd : Z) : Z :=
  if 0 <=? e
  then Zpos m * 2 ^ e * 10 ^ nd
  else
    let num := Zpos m * 10 ^ nd in
    let den := 2 ^ (- e) in
    let q := num / den in
    let r := num mod den in
    match 2 * r ?= den with
    | Lt => q
    | Gt => q + 1
    | Eq => if Z.even q then q else q + 1
    end.

(** [round(x, nd)] for [0 <= nd]: the decimal rounding of [x], read
    back as a binary64 value; infinities and nan round to themselves. *)
Definition round (x : float) (nd : Z) : float :=
  match x with
  | S754_finite s m e => of_decimal s (scaled m e nd) (- nd)
  | _ => x
  end.

Definition digit_char (d : Z) : ascii := ascii_of_N (Z.to_N (48 + d)).

(** The [n] low decimal digits of [k], most significant first. *)
Fixpoint digits_fixed (n : nat) (k : Z) : string :=
  match n with
  | O => EmptyString
  | S n' => digits_fixed n' (k / 10) ++ String (digit_char (k mod 10)) EmptyString
  end.

Fixpoint digits_of_fuel (fuel : nat) (k : Z) (acc : string) : string :=
  match fuel with
  | O => acc
  | S f =>
      let acc' := String (digit_char (k mod 10)) acc in
      if k / 10 =? 0 then acc' else digits_of_fuel f (k / 10) acc'
  end.

(** The decimal numeral of [0 <= k], without leading zeros. *)
Definition digits_of (k : Z) : string :=
  digits_of_fuel (S (Z.to_nat (Z.log2 k))) k EmptyString.

Definition sign_str (s : bool) : string := if s then "-" else "".

(** [format(x, '.7f')]. *)
Definition format_7f (x : float) : string :=
  match x with
  | S754_nan => "nan"
  | S754_infinity s => sign_str s ++ "inf"
  | S754_zero s => sign_str s ++ "0.0000000"
  | S754_finite s m e =>
      let k := scaled m e 7 in
      sign_str s ++ digits_of (k / 10 ^ 7) ++ "." ++ digits_fixed 7 (k mod 10 ^ 7)
  end.

End PyFloat.

Import PyFloat.

(** ** The float scanner: [find_floats_in_bytes] *)

(** A scanned number: [(m.start(), val)]. *)
Definition float_match : Type := (Z * float)%type.

(** The body of the [try]: decode the token and parse it; [None] is the
    [except Exception: continue] branch. *)
Definition token_value (m : rmatch) : option float :=
  match decode_ascii (group m) with
  | Some s => of_str s
  | None => None
  end.

Fixpoint floats_loop (ms : list rmatch) (results : list float_match)
  : list float_match :=
  match ms with
  | [] => results
  | m :: ms' =>
      match token_value m with
      | Some val => floats_loop ms' (results ++ [(start m, val)])
      | None => floats_loop ms' results
      end
  end.

Definition find_floats_in_bytes (data : list byte) : list float_match :=
  floats_loop (finditer FLOAT_RE data) [].

(** ** The pair finder: [find_coordinate_pairs] *)

(** An emitted pair: [(pos1, pos2, lon, lat)]. *)
Definition coord_pair : Type := (Z * Z * float * float)%type.

Definition cp_pos1 (c : coord_pair) : Z := let '(p1, _, _, _) := c in p1.
Definition cp_pos2 (c : coord_pair) : Z := let '(_, p2, _, _) := c in p2.
Definition cp_lon (c : coord_pair) : float := let '(_, _, lon, _) := c in lon.
Definition cp_lat (c : coord_pair) : float := let '(_, _, _, lat) := c in lat.

Definition f180 : float := of_decimal false 1800 (-1).
Definition f90 : float := of_decimal false 900 (-1).

(** [-180.0 <= v <= 180.0] and [-90.0 <= v <= 90.0]. *)
Definition lon_ok (v : float) : bool := leb (neg f180) v && leb v f180.
Definition lat_ok (v : float) : bool := leb (neg f90) v && leb v f90.

(** The two [if]s of the inner loop body, in order. *)
Definition emit (pos1 pos2 : Z) (v1 v2 : float) (pairs : list coord_pair)
  : list coord_pair :=
  let pairs1 :=
    if lon_ok v1 && lat_ok v2 then pairs ++ [(pos1, pos2, v1, v2)] else pairs in
  if lon_ok v2 && lat_ok v1 then pairs1 ++ [(pos1, pos2, v2, v1)] else pairs1.

(** [for j in range(i+1, n)], over the entries after index [i]. *)
Fixpoint inner_loop (pos1 : Z) (v1 : float) (rest : list float_match)
         (max_byte_distance : Z) (pairs : list coord_pair) : list coord_pair :=
  match rest with
  | [] => pairs
  | (pos2, v2) :: rest' =>
      if pos2 - pos1 >? max_byte_distance
      then pairs
      else inner_loop pos1 v1 rest' max_byte_distance (emit pos1 pos2 v1 v2 pairs)
  end.

(** [for i in range(n)]. *)
Fixpoint outer_loop (floats : list float_match) (max_byte_distance : Z)
         (pairs : list coord_pair) : list coord_pair :=
  match floats with
  | [] => pairs
  | (pos1, v1) :: rest =>
      outer_loop rest max_byte_distance
                 (inner_loop pos1 v1 rest max_byte_distance pairs)
  end.

Definition find_coordinate_pairs (floats : list float_match)
           (max_byte_distance : Z) : list coord_pair :=
  outer_loop floats max_byte_distance [].

Definition default_max_byte_distance : Z := 200.

(** ** Deduplication *)

Definition canon_key : Type := (float * float)%type.

Definition canonical_pair (lon lat : float) : canon_key :=
  (round lat 7, round lon 7).

(** Equality of two keys, component by component as floats compare:
    the two zeros are equal.  The keys of emitted pairs hold no nan,
    since their values passed the range tests. *)
Definition key_eqb (k1 k2 : canon_key) : bool :=
  eqb (fst k1) (fst k2) && eqb (snd k1) (snd k2).

(** [key in seen]. *)
Definition key_in (k : canon_key) (seen : list canon_key) : bool :=
  existsb (key_eqb k) seen.

(** A unique candidate: [(lon, lat, pos1, pos2)]. *)
Definition candidate : Type := (float * float * Z * Z)%type.

Definition cand_lon (c : candidate) : float := let '(lon, _, _, _) := c in lon.
Definition cand_lat (c : candidate) : float := let '(_, lat, _, _) := c in lat.
Definition cand_pos1 (c : candidate) : Z := let '(_, _, p1, _) := c in p1.
Definition cand_pos2 (c : candidate) : Z := let '(_, _, _, p2) := c in p2.

Definition to_candidate (c : coord_pair) : candidate :=
  let '(pos1, pos2, lon, lat) := c in (lon, lat, pos1, pos2).

Definition pair_key (c : coord_pair) : canon_key :=
  canonical_pair (cp_lon c) (cp_lat c).

Fixpoint dedup_loop (pairs : list coord_pair) (unique : list candidate)
         (seen : list canon_key) : list candidate :=
  match pairs with
  | [] => unique
  | (pos1, pos2, lon, lat) :: rest =>
      let key := canonical_pair lon lat in
      if key_in key seen
      then dedup_loop rest unique seen
      else dedup_loop rest (unique ++ [(lon, lat, pos1, pos2)]) (key :: seen)
  end.

Definition dedup (pairs : list coord_pair) : list candidate :=
  dedup_loop pairs [] [].

(** ** Selection *)

Definition target_lat : float := of_decimal false 379361 (-4).
Definition target_lon : float := neg (of_decimal false 1220591 (-4)).
Definition tol : float := of_decimal false 1 (-4).

(** [abs(lat_c - target_lat) <= tol and abs(lon_c - target_lon) <= tol]. *)
Definition near_target (c : candidate) : bool :=
  leb (abs (sub (cand_lat c) target_lat)) tol
  && leb (abs (sub (cand_lon c) target_lon)) tol.

(** The target loop, with its [break]. *)
Fixpoint target_loop (unique : list candidate) : option candidate :=
  match unique with
  | [] => None
  | c :: rest => if near_target c then Some c else target_loop rest
  end.

Definition sort_key (item : candidate) : Z :=
  Z.min (cand_pos1 item) (cand_pos2 item).

(** [sorted(l, key=key)]: ascending and stable. *)
Fixpoint insert_sorted {A} (key : A -> Z) (x : A) (l : list A) : list A :=
  match l with
  | [] => [x]
  | y :: l' => if key x <=? key y then x :: l else y :: insert_sorted key x l'
  end.

Fixpoint sorted {A} (key : A -> Z) (l : list A) : list A :=
  match l with
  | [] => []
  | x :: l' => insert_sorted key x (sorted key l')
  end.

(** [if chosen is None and unique: chosen = sorted(...)[0]]. *)
Definition fallback (unique : list candidate) : option candidate :=
  match unique with
  | [] => None
  | _ :: _ => hd_error (sorted sort_key unique)
  end.

Definition select (unique : list candidate) : option candidate :=
  match target_loop unique with
  | Some c => Some c
  | None => fallback unique
  end.

(** ** The text written *)

Definition nl : string := String (ascii_of_nat 10) EmptyString.

Definition header_line : string := "longitude,latitude" ++ nl.

Definition coord_line (lon lat : float) : string :=
  format_7f lon ++ "," ++ format_7f lat ++ nl.

Definition not_found_line (inp : string) : string :=
  "No longitude/latitude found in " ++ inp ++ nl.

(** ** From the bytes read to the selection *)

(** [max_byte_distance=300] in [main]. *)
Definition window : Z := 300.

Definition choose (data : list byte) : option candidate :=
  select (dedup (find_coordinate_pairs (find_floats_in_bytes data) window)).

(** ** Files and the process: [main] *)

Module OS.

(** What a path names.  Permissions and links are not represented. *)
Inductive node : Type :=
| File (content : list byte)
| Dir.

Definition fs : Type := string -> option node.

Inductive exc : Type :=
| FileNotFoundError
| IsADirectoryError.

(** [os.path.exists]. *)
Definition path_exists (f : fs) (p : string) : bool :=
  match f p with Some _ => true | None => false end.

(** The part of a path before its last slash, if it has one. *)
Fixpoint dirname (p : string) : option string :=
  match p with
  | EmptyString => None
  | String c p' =>
      match dirname p' with
      | Some d => Some (String c d)
      | None => if Ascii.eqb c "/" then Some EmptyString else None
      end
  end.

(** A file can be created at [p] when [p] is relative to the working
    directory or directly under the root, or its directory exists. *)
Definition parent_ok (f : fs) (p : string) : bool :=
  match dirname p with
  | None | Some EmptyString => true
  | Some d => match f d with Some Dir => true | _ => false end
  end.

(** [open(p, 'rb').read()]. *)
Definition read_bytes (f : fs) (p : string) : exc + list byte :=
  match f p with
  | Some (File data) => inr data
  | Some Dir => inl IsADirectoryError
  | None => inl FileNotFoundError
  end.

Definition update (f : fs) (p : string) (n : node) : fs :=
  fun q => if String.eqb q p then Some n else f q.

(** [open(p, 'w')]: the file is created or truncated. *)
Definition open_w (f : fs) (p : string) : exc + fs :=
  match f p with
  | Some Dir => inl IsADirectoryError
  | Some (File _) => inr (update f p (File []))
  | None => if parent_ok f p then inr (update f p (File []))
            else inl FileNotFoundError
  end.

(** [f.write(text)] on the file opened at [p]. *)
Definition write (f : fs) (p : string) (text : string) : fs :=
  match f p with
  | Some (File old) => update f p (File (old ++ list_byte_of_string text))
  | _ => f
  end.

(** How the process ends: [main] returned a code, handed to
    [SystemExit], or an exception escaped. *)
Inductive ending : Type :=
| Returned (code : Z)
| Raised (e : exc).

Definition exit_code (e : ending) : Z :=
  match e with
  | Returned c => c
  | Raised _ => 1
  end.

Record outcome : Type :=
  { ending_of : ending; files : fs; stdout : list string }.

End OS.

Import OS.

Record args : Type := { input : string; output : string }.

Definition default_args : args :=
  {| input := "~/Desktop/Input/Golf.mov"; output := "~/Desktop/Output.txt" |}.

(** The body of [with open(out, 'w') as f:], on the file just opened. *)
Definition write_result (f1 : fs) (out inp : string) (chosen : option candidate)
  : outcome :=
  match chosen with
  | None =>
      {| ending_of := Returned 0;
         files := write f1 out (not_found_line inp);
         stdout := [("No longitude/latitude found; wrote message to " ++ out)%string] |}
  | Some (lon, lat, p1, p2) =>
      {| ending_of := Returned 0;
         files := write (write f1 out header_line) out (coord_line lon lat);
         stdout := [("Wrote earliest longitude/latitude (decimal) to " ++ out)%string;
                    ("Wrote " ++ out)%string] |}
  end.

Section Main.

(** [os.path.expanduser], which depends on the environment. *)
Variable expanduser : string -> string.

Definition main (a : args) (f : fs) : outcome :=
  let inp := expanduser (input a) in
  let out := expanduser (output a) in
  if negb (path_exists f inp)
  then {| ending_of := Returned 2; files := f;
          stdout := [("Input file not found: " ++ inp)%string] |}
  else
    match read_bytes f inp with
    | inl e => {| ending_of := Raised e; files := f; stdout := [] |}
    | inr data =>
        let chosen := choose data in
        match open_w f out with
        | inl e => {| ending_of := Raised e; files := f; stdout := [] |}
        | inr f1 => write_result f1 out inp chosen
        end
    end.

End Main.

(** * Notions used in the statements *)

(** ** The number grammar, as the specification words it *)

Module Grammar.

Definition digits (w : list byte) : Prop :=
  Forall (fun c => is_digit c = true) w.

(** One or more digits. *)
Definition digits1 (w : list byte) : Prop := digits w /\ (1 <= length w)%nat.

(** An optional sign. *)
Definition opt_sign (w : list byte) : Prop :=
  w = [] \/ exists c, w = [c] /\ is_sign c = true.

(** Either 1 to 3 digits, a dot and one or more digits, or one or
    more digits, a dot and one or more digits. *)
Definition mantissa (w : list byte) : Prop :=
  exists ip d fp,
    w = ip ++ d :: fp /\ is_dot d = true /\ digits1 fp
    /\ ((digits ip /\ (1 <= length ip <= 3)%nat) \/ digits1 ip).

(** [e] or [E], an optional sign, one or more digits. *)
Definition exponent_suffix (w : list byte) : Prop :=
  exists e sg ds,
    w = e :: sg ++ ds /\ is_exp e = true /\ opt_sign sg /\ digits1 ds.

Definition number_grammar (w : list byte) : Prop :=
  exists sg mt ex,
    w = sg ++ mt ++ ex /\ opt_sign sg /\ mantissa mt
    /\ (ex = [] \/ exponent_suffix ex).

End Grammar.

Import Grammar.

(** [m1] lies wholly before [m2]. *)
Definition before (m1 m2 : rmatch) : Prop :=
  start m1 < start m2
  /\ start m1 + Z.of_nat (length (group m1)) <= start m2.

(** The bytes at which a run of digits ends. *)
Definition stops (r : list byte) : Prop :=
  match r with
  | [] => True
  | c :: _ => is_digit c = false /\ is_underscore c = false
  end.

(** Selects the pairs carrying the two given offsets. *)
Definition at_offsets (p1 p2 : Z) (c : coord_pair) : bool :=
  (cp_pos1 c =? p1) && (cp_pos2 c =? p2).

(** The key of [c] already occurred among the first [i] pairs. *)
Definition occurred_before (pairs : list coord_pair) (i : nat) (c : coord_pair)
  : bool :=
  existsb (fun d => key_eqb (pair_key c) (pair_key d)) (firstn i pairs).

(** The pairs whose key has not occurred at an earlier position, in their
    order: the deduplication as the specification words it. *)
Definition first_occurrences (pairs : list coord_pair) : list coord_pair :=
  map snd
      (filter (fun ic => negb (occurred_before pairs (fst ic) (snd ic)))
              (combine (seq 0 (length pairs)) pairs)).

(** [seen] holds, up to key equality, the keys of the pairs read so far. *)
Definition tracks (seen : list canon_key) (earlier : list coord_pair) : Prop :=
  forall k, key_in k seen = existsb (fun d => key_eqb k (pair_key d)) earlier.

Definition is_digit_char (c : ascii) : bool :=
  N.leb 48 (N_of_ascii c) && N.leb (N_of_ascii c) 57.

Fixpoint all_digits (s : string) : bool :=
  match s with
  | EmptyString => true
  | String c s' => is_digit_char c && all_digits s'
  end.

(** An optional minus sign, one or more digits, a point and exactly
    seven digits. *)
Definition seven_places (s : string) : Prop :=
  exists sg ip fp,
    s = (sg ++ ip ++ "." ++ fp)%string
    /\ (sg = EmptyString \/ sg = "-"%string)
    /\ ip <> EmptyString /\ all_digits ip = true
    /\ all_digits fp = true /\ String.length fp = 7%nat.

(** The key of a unique candidate. *)
Definition cand_key (u : candidate) : canon_key :=
  canonical_pair (cand_lon u) (cand_lat u).


(** The number part of the pattern with a given bound on its integer
    digits: [\d{1,hi}\.\d+]. *)
Definition digits_dot_digits (hi : option nat) : regex :=
  Seq (Rep is_digit 1 hi) (Seq (Cls is_dot) (Rep is_digit 1 None)).

(** The pattern around a given number part. *)
Definition float_re_with (number : regex) : regex :=
  Seq (Opt (Cls is_sign))
      (Seq number
           (Opt (Seq (Cls is_exp)
                     (Seq (Opt (Cls is_sign)) (Rep is_digit 1 None))))).

(** [FLOAT_RE] with its two alternatives in the other order, and with
    the second alternative alone. *)
Definition FLOAT_RE_swapped : regex :=
  float_re_with (Alt (digits_dot_digits None) (digits_dot_digits (Some 3%nat))).

Definition FLOAT_RE_unbounded : regex := float_re_with (digits_dot_digits None).

(** The longest run of bytes of a class at the start of the input, and
    what follows it. *)
Fixpoint span (p : byte -> bool) (s : list byte) : list byte * list byte :=
  match s with
  | c :: s' => if p c then let (run, rest) := span p s' in (c :: run, rest)
               else ([], s)
  | [] => ([], [])
  end.

(** The input does not go on with a digit. *)
Definition no_digit_next (s : list byte) : Prop :=
  match s with
  | c :: _ => is_digit c = false
  | [] => True
  end.

(** The input starts with a digit. *)
Definition digit_first (s : list byte) : Prop :=
  match s with
  | c :: _ => is_digit c = true
  | [] => False
  end.

(** A count allowed by an upper bound. *)
Definition within (hi : option nat) (n : nat) : bool :=
  match hi with
  | None => true
  | Some h => (n <=? h)%nat
  end.

(** The exponent part of the pattern, and the continuation that accepts
    what is left. *)
Definition exponent_re : regex :=
  Opt (Seq (Cls is_exp) (Seq (Opt (Cls is_sign)) (Rep is_digit 1 None))).

Definition whole (s : list byte) : option (list byte) := Some s.

(** The value of a run of digits read after [acc]. *)
Definition value_from (acc : Z) (ds : list byte) : Z :=
  fold_left (fun acc d => acc * 10 + digit_value d) ds acc.

(** What is known where the scan stands: after a digit that started no
    match, a digit starts none either; inside a match, no digit follows
    the match. *)
Definition scan_inv (prev_digit : bool) (skip : nat) (s : list byte) : Prop :=
  match skip with
  | O => prev_digit = true -> digit_first s -> match_at FLOAT_RE s = None
  | S _ => no_digit_next (skipn skip s)
  end.

(** The byte before the match is not a digit. *)
Definition last_ok (prev_digit : bool) (pre : list byte) : Prop :=
  match rev pre with
  | x :: _ => is_digit x = false
  | [] => prev_digit = false
  end.

(** The number that a run of decimal digits denotes, read after [acc]. *)
Fixpoint numeral_from (acc : Z) (t : string) : Z :=
  match t with
  | EmptyString => acc
  | String c t' => numeral_from (acc * 10 + (Z.of_N (N_of_ascii c) - 48)) t'
  end.

Definition numeral (t : string) : Z := numeral_from 0 t.

(** [k] is the integer nearest to [m * 2^e * 10^7], and the even one
    when two integers are equally near: the magnitude [m * 2^e] counted
    in units of the seventh decimal place. *)
Definition nearest_in_seventh_place (m : positive) (e : Z) (k : Z) : Prop :=
  let scale := 2 ^ Z.max 0 (- e) in
  let exact := Zpos m * 2 ^ Z.max 0 e * 10 ^ 7 in
  2 * Z.abs (k * scale - exact) <= scale
  /\ (2 * Z.abs (k * scale - exact) = scale -> Z.even k = true).

(** A numeral without a superfluous leading zero. *)
Definition no_leading_zero (t : string) : Prop :=
  t = "0"%string \/ exists c r, t = String c r /\ c <> "0"%char.

(** The text shows the finite value [x] to exactly seven decimal
    places: a minus sign exactly when the sign of [x] is set, the integer
    digits, a point and seven digits, which together denote the magnitude
    of [x] rounded to the seventh place. *)
Definition shows_to_seven_places (x : float) (t : string) : Prop :=
  match x with
  | S754_zero s => t = ((if s then "-" else "") ++ "0.0000000")%string
  | S754_finite s m e =>
      exists ip fp,
        t = ((if s then "-" else "") ++ ip ++ "." ++ fp)%string
        /\ all_digits ip = true /\ no_leading_zero ip
        /\ all_digits fp = true /\ String.length fp = 7%nat
        /\ nearest_in_seventh_place m e (numeral (ip ++ fp))
  | _ => False
  end.

(** * Sample values *)

(** Sample values for the worked instances below. *)
Module Samples.

Definition dec (m e : Z) : float := of_decimal false m e.

(** A candidate within tolerance of the target, half a tolerance away. *)
Definition near_a : candidate :=
  (neg (dec 12205915 (-5)), dec 3793615 (-5), 40, 52).
(** A candidate exactly at the target. *)
Definition near_b : candidate := (target_lon, target_lat, 80, 93).
Definition far_a : candidate := (dec 15 (-1), dec 25 (-1), 40, 50).
Definition far_b : candidate := (dec 25 (-1), dec 15 (-1), 10, 20).
Definition far_c : candidate := (dec 5 (-1), dec 5 (-1), 10, 30).

Definition three_floats : list float_match :=
  [(0, dec 15 (-1)); (4, dec 25 (-1)); (8, dec 2005 (-1))].

(** Two numbers in range, 400 bytes apart, and one out of range. *)
Definition spread_floats : list float_match :=
  [(0, dec 5 (-1)); (3, dec 5000 (-1)); (400, dec 25 (-2))].

Definition clip_fs : fs :=
  fun p => if String.eqb p "clip.mov"
           then Some (File (of_string "...xx-122.0591000xx37.9361000xx"))
           else None.

Definition clip_args : args := {| input := "clip.mov"; output := "out.txt" |}.

(** A file system in which the input path names a directory. *)
Definition dir_fs : fs :=
  fun p => if String.eqb p "clips" then Some Dir else None.

Definition dir_args : args := {| input := "clips"; output := "out.txt" |}.

Definition same (s : string) : string := s.

End Samples.

Import Samples.

Definition one_file (data : list byte) : fs :=
  fun p => if String.eqb p "clip.mov" then Some (File data) else None.

Definition text_at (o : outcome) (p : string) : option string :=
  match files o p with
  | Some (File b) => Some (string_of_list_byte b)
  | _ => None
  end.


(** * Properties *)

(** ** The matcher only returns words of the pattern's language *)

Module ReFacts.

Lemma or_else_some {A} (x y : option A) (v : A) :
  or_else x y = Some v -> x = Some v \/ (x = None /\ y = Some v).
Proof. destruct x; simpl; intros H; [left | right]; auto. Qed.

Lemma rep_greedy_sound p s :
  forall lo hi k rest,
    rep_greedy p lo hi s k = Some rest ->
    exists w s1, s = w ++ s1 /\ rep_lang p lo hi w /\ k s1 = Some rest.
Proof.
  induction s as [|c s IH]; intros lo hi k rest H; simpl in H.
  - destruct lo; [|discriminate].
    exists [], []. repeat split; auto. constructor.
  - assert (Hstop : match lo with O => k (c :: s) | S _ => None end = Some rest ->
                    exists w s1, c :: s = w ++ s1 /\ rep_lang p lo hi w /\ k s1 = Some rest).
    { destruct lo; [|discriminate]. intros Hk.
      exists [], (c :: s). repeat split; auto. constructor. }
    destruct (p c && may_take hi) eqn:E; [|auto].
    apply or_else_some in H. destruct H as [H | [_ H]]; [|auto].
    apply andb_prop in E. destruct E as [Ep Eh].
    apply IH in H. destruct H as (w & s1 & -> & Hw & Hk).
    exists (c :: w), s1. repeat split; auto. now constructor.
Qed.

Lemma bt_sound r :
  forall s k rest,
    bt r s k = Some rest ->
    exists w s1, s = w ++ s1 /\ lang r w /\ k s1 = Some rest.
Proof.
  induction r as [p | r1 IH1 r2 IH2 | r1 IH1 r2 IH2 | r1 IH1 | p lo hi];
    intros s k rest H; simpl in H.
  - destruct s as [|c s]; [discriminate|].
    destruct (p c) eqn:E; [|discriminate].
    exists [c], s. repeat split; auto. now constructor.
  - apply IH1 in H. destruct H as (w1 & s1 & -> & L1 & H).
    apply IH2 in H. destruct H as (w2 & s2 & -> & L2 & H).
    exists (w1 ++ w2), s2. rewrite <- app_assoc. repeat split; auto.
    now constructor.
  - apply or_else_some in H. destruct H as [H | [_ H]].
    + apply IH1 in H. destruct H as (w & s1 & -> & L & H).
      exists w, s1. repeat split; auto. now apply lang_alt_l.
    + apply IH2 in H. destruct H as (w & s1 & -> & L & H).
      exists w, s1. repeat split; auto. now apply lang_alt_r.
  - apply or_else_some in H. destruct H as [H | [_ H]].
    + apply IH1 in H. destruct H as (w & s1 & -> & L & H).
      exists w, s1. repeat split; auto. now apply lang_opt_some.
    + exists [], s. repeat split; auto. apply lang_opt_none.
  - apply rep_greedy_sound in H. destruct H as (w & s1 & -> & L & H).
    exists w, s1. repeat split; auto. now constructor.
Qed.

Lemma match_at_sound r s g :
  match_at r s = Some g -> lang r g /\ exists rest, s = g ++ rest.
Proof.
  unfold match_at. destruct (bt r s _) as [rest|] eqn:E; [|discriminate].
  intros [= <-]. apply bt_sound in E.
  destruct E as (w & s1 & -> & L & [= ->]).
  assert (Hn : (length (w ++ rest) - length rest)%nat = length w).
  { rewrite length_app. lia. }
  rewrite Hn, firstn_app, Nat.sub_diag, firstn_all. simpl. rewrite app_nil_r.
  split; eauto.
Qed.

(** Every match reported by [scan] starts at or after [pos + skip], is a
    word of the language, and is the piece of the input found at its
    start. *)
Lemma scan_spec r s :
  forall pos skip m,
    In m (scan r pos skip s) ->
    pos + Z.of_nat skip <= start m
    /\ lang r (group m)
    /\ exists pre post,
        s = pre ++ group m ++ post /\ Z.of_nat (length pre) = start m - pos.
Proof.
  induction s as [|c s IH]; intros pos skip m H.
  - destruct skip; simpl in H; [|contradiction].
    destruct (match_at r []) as [g|] eqn:E; [|contradiction].
    destruct H as [<-|[]]. simpl.
    apply match_at_sound in E. destruct E as [L [rest E]].
    split; [lia|]. split; auto.
    exists [], rest. simpl. split; auto. lia.
  - destruct skip as [|n]; simpl in H.
    + destruct (match_at r (c :: s)) as [g|] eqn:E.
      * destruct H as [<-|H].
        -- simpl. apply match_at_sound in E. destruct E as [L [rest E]].
           split; [lia|]. split; auto.
           exists [], rest. simpl. split; auto. lia.
        -- apply IH in H. destruct H as (Hle & L & pre & post & -> & Hp).
           split; [lia|]. split; auto.
           exists (c :: pre), post. simpl. split; auto. lia.
      * apply IH in H. destruct H as (Hle & L & pre & post & -> & Hp).
        split; [lia|]. split; auto.
        exists (c :: pre), post. simpl. split; auto. lia.
    + apply IH in H. destruct H as (Hle & L & pre & post & -> & Hp).
      split; [lia|]. split; auto.
      exists (c :: pre), post. simpl. split; auto. lia.
Qed.

(** The starts reported by [scan] increase strictly. *)
Lemma scan_starts_increasing r s :
  forall pos skip, StronglySorted Z.lt (map start (scan r pos skip s)).
Proof.
  induction s as [|c s IH]; intros pos skip.
  - destruct skip; simpl; [|constructor].
    destruct (match_at r []); simpl; repeat constructor.
  - destruct skip as [|n]; simpl; [|apply IH].
    destruct (match_at r (c :: s)) as [g|]; [|apply IH].
    simpl. constructor; [apply IH|].
    apply Forall_forall. intros x Hx. apply in_map_iff in Hx.
    destruct Hx as (m & <- & Hm). apply scan_spec in Hm. lia.
Qed.

End ReFacts.

Module GrammarFacts.

Lemma rep_lang_digits p lo hi w :
  rep_lang p lo hi w ->
  Forall (fun c => p c = true) w /\ (lo <= length w)%nat
  /\ forall h, hi = Some h -> (length w <= h)%nat.
Proof.
  induction 1 as [hi | lo hi c w Hp Hm _ (IHf & IHl & IHh)].
  - repeat split; auto. simpl. intros; lia.
  - repeat split.
    + now constructor.
    + simpl. lia.
    + intros h ->. simpl in *. destruct h; [discriminate|].
      specialize (IHh h eq_refl). lia.
Qed.

Lemma lang_cls_inv p w :
  lang (Cls p) w -> exists c, w = [c] /\ p c = true.
Proof. inversion 1; subst; eauto. Qed.

Lemma lang_seq_inv r1 r2 w :
  lang (Seq r1 r2) w -> exists w1 w2, w = w1 ++ w2 /\ lang r1 w1 /\ lang r2 w2.
Proof. inversion 1; subst; eauto. Qed.

Lemma lang_alt_inv r1 r2 w :
  lang (Alt r1 r2) w -> lang r1 w \/ lang r2 w.
Proof. inversion 1; subst; auto. Qed.

Lemma lang_opt_inv r w :
  lang (Opt r) w -> w = [] \/ lang r w.
Proof. inversion 1; subst; auto. Qed.

Lemma lang_rep_inv p lo hi w :
  lang (Rep p lo hi) w -> rep_lang p lo hi w.
Proof. inversion 1; subst; auto. Qed.

Lemma lang_opt_sign w : lang (Opt (Cls is_sign)) w -> opt_sign w.
Proof.
  intros H. apply lang_opt_inv in H. destruct H as [-> | H]; [now left|].
  apply lang_cls_inv in H. right. assumption.
Qed.

Lemma lang_digits1 hi w : lang (Rep is_digit 1 hi) w -> digits1 w.
Proof.
  intros H. apply lang_rep_inv, rep_lang_digits in H.
  destruct H as (Hf & Hl & _). split; assumption.
Qed.

Lemma lang_fraction w :
  lang (Seq (Cls is_dot) (Rep is_digit 1 None)) w ->
  exists d fp, w = d :: fp /\ is_dot d = true /\ digits1 fp.
Proof.
  intros H. apply lang_seq_inv in H. destruct H as (w1 & w2 & -> & H1 & H2).
  apply lang_cls_inv in H1. destruct H1 as (d & -> & Hd).
  apply lang_digits1 in H2. exists d, w2. auto.
Qed.

(** Every word of [FLOAT_RE] is a number of the grammar. *)
Lemma FLOAT_RE_grammar w : lang FLOAT_RE w -> number_grammar w.
Proof.
  unfold FLOAT_RE. intros H.
  apply lang_seq_inv in H. destruct H as (sg & w1 & -> & Hsg & H).
  apply lang_seq_inv in H. destruct H as (mt & ex & -> & Hmt & Hex).
  exists sg, mt, ex. split; [reflexivity|].
  split; [now apply lang_opt_sign|]. split.
  - apply lang_alt_inv in Hmt. destruct Hmt as [Hmt | Hmt];
      apply lang_seq_inv in Hmt; destruct Hmt as (ip & w2 & -> & Hip & Hfr);
      apply lang_fraction in Hfr; destruct Hfr as (d & fp & -> & Hd & Hfp);
      exists ip, d, fp; repeat split; try assumption; try apply Hfp.
    + left. apply lang_rep_inv, rep_lang_digits in Hip.
      destruct Hip as (Hf & Hl & Hh). specialize (Hh 3%nat eq_refl).
      repeat split; assumption.
    + right. now apply lang_digits1 in Hip.
  - apply lang_opt_inv in Hex. destruct Hex as [-> | Hex]; [now left|].
    right. apply lang_seq_inv in Hex. destruct Hex as (w1 & w2 & -> & He & H).
    apply lang_cls_inv in He. destruct He as (e & -> & He).
    apply lang_seq_inv in H. destruct H as (sg2 & ds & -> & Hs & Hds).
    apply lang_opt_sign in Hs. apply lang_digits1 in Hds.
    exists e, sg2, ds. auto.
Qed.

(** *** Byte classes *)

Ltac ncmp :=
  repeat match goal with
    | |- context [N.eqb ?a ?b] => destruct (N.eqb_spec a b)
    | |- context [N.leb ?a ?b] => destruct (N.leb_spec a b)
    | |- context [N.ltb ?a ?b] => destruct (N.ltb_spec a b)
    end;
  simpl; intros; try reflexivity; try discriminate; try lia.

Ltac classes :=
  unfold is_digit, is_sign, is_dot, is_exp, is_underscore, is_ascii,
    is_space, lower in *;
  repeat match goal with
    | c : byte |- _ => generalize dependent (code c); clear c; intro
    end;
  ncmp.

Lemma digit_ascii c : is_digit c = true -> is_ascii c = true.
Proof. intros H; revert H; classes. Qed.
Lemma sign_ascii c : is_sign c = true -> is_ascii c = true.
Proof. intros H; revert H; classes. Qed.
Lemma dot_ascii c : is_dot c = true -> is_ascii c = true.
Proof. intros H; revert H; classes. Qed.
Lemma exp_ascii c : is_exp c = true -> is_ascii c = true.
Proof. intros H; revert H; classes. Qed.

Lemma digit_not_space c : is_digit c = true -> is_space c = false.
Proof. intros H; revert H; classes. Qed.
Lemma sign_not_space c : is_sign c = true -> is_space c = false.
Proof. intros H; revert H; classes. Qed.
Lemma dot_stops c : is_dot c = true -> is_digit c = false /\ is_underscore c = false.
Proof. intros H; revert H; classes; split; reflexivity. Qed.
Lemma exp_stops c : is_exp c = true -> is_digit c = false /\ is_underscore c = false.
Proof. intros H; revert H; classes; split; reflexivity. Qed.
Lemma digit_lower c : is_digit c = true -> lower c <> 105%N /\ lower c <> 110%N.
Proof. intros H; revert H; classes; split; lia. Qed.

Lemma sign_code c :
  is_sign c = true -> N.eqb (code c) 45 = true \/
                      (N.eqb (code c) 45 = false /\ N.eqb (code c) 43 = true).
Proof. intros H; revert H; classes; auto. Qed.
Lemma digit_code c :
  is_digit c = true -> N.eqb (code c) 45 = false /\ N.eqb (code c) 43 = false.
Proof. intros H; revert H; classes; auto. Qed.

End GrammarFacts.

(** ** Every number of the grammar decodes and parses *)

Module ParseFacts.

Import GrammarFacts.

Lemma digits_tail_stop ds :
  forall r, digits ds -> stops r -> digits_tail (ds ++ r) = (ds, r).
Proof.
  induction ds as [|c ds IH]; intros r Hd Hr.
  - destruct r as [|c r]; [reflexivity|].
    simpl in *. destruct Hr as [-> ->]. reflexivity.
  - inversion Hd as [|? ? Hc Hds]; subst.
    cbn [app digits_tail]. rewrite Hc, (IH r Hds Hr). reflexivity.
Qed.

Lemma digitpart_stop ds r :
  digits1 ds -> stops r -> digitpart (ds ++ r) = Some (ds, r).
Proof.
  intros [Hd Hl] Hr. destruct ds as [|c ds]; [simpl in Hl; lia|].
  inversion Hd as [|? ? Hc Hds]; subst.
  cbn [app digitpart]. rewrite Hc, (digits_tail_stop ds r Hds Hr). reflexivity.
Qed.

Lemma lstrip_id c s : is_space c = false -> lstrip (c :: s) = c :: s.
Proof. intros H. simpl. now rewrite H. Qed.

Lemma strip_id a s z :
  is_space a = false -> is_space z = false ->
  strip (a :: s ++ [z]) = a :: s ++ [z].
Proof.
  intros Ha Hz. unfold strip. rewrite (lstrip_id a _ Ha).
  change (a :: s ++ [z]) with ((a :: s) ++ [z]).
  rewrite rev_app_distr.
  change (rev [z] ++ rev (a :: s)) with (z :: rev (a :: s)).
  rewrite (lstrip_id z _ Hz).
  change (rev (z :: rev (a :: s))) with (rev (rev (a :: s)) ++ [z]).
  rewrite rev_involutive. reflexivity.
Qed.

Lemma opt_sign_ascii sg : opt_sign sg -> forallb is_ascii sg = true.
Proof.
  intros [-> | (c & -> & Hc)]; simpl; [reflexivity|].
  now rewrite (sign_ascii c Hc).
Qed.

Lemma digits_ascii ds : digits ds -> forallb is_ascii ds = true.
Proof.
  induction 1 as [|c ds Hc _ IH]; simpl; [reflexivity|].
  now rewrite (digit_ascii c Hc), IH.
Qed.

(** A number of the grammar holds ASCII bytes only. *)
Lemma grammar_ascii w : number_grammar w -> forallb is_ascii w = true.
Proof.
  intros (sg & mt & ex & -> & Hsg & (ip & d & fp & -> & Hd & [Hfp _] & Hip) & Hex).
  rewrite !forallb_app. cbn [forallb].
  rewrite (opt_sign_ascii sg Hsg), (dot_ascii d Hd), (digits_ascii fp Hfp).
  assert (Hi : digits ip) by (destruct Hip as [[H _] | [H _]]; exact H).
  rewrite (digits_ascii ip Hi). simpl.
  destruct Hex as [-> | (e & sg2 & ds & -> & He & Hs2 & [Hds _])]; [reflexivity|].
  cbn [forallb]. rewrite forallb_app.
  now rewrite (exp_ascii e He), (opt_sign_ascii sg2 Hs2), (digits_ascii ds Hds).
Qed.

Lemma take_sign_opt sg c r :
  opt_sign sg -> is_digit c = true ->
  exists b, take_sign (sg ++ c :: r) = (b, c :: r).
Proof.
  intros [-> | (s & -> & Hs)] Hc; simpl.
  - destruct (digit_code c Hc) as [-> ->]. eauto.
  - destruct (sign_code s Hs) as [-> | [-> ->]]; eauto.
Qed.

Lemma not_word_digit wd c r :
  is_digit c = true -> (hd 0%N wd = 105%N \/ hd 0%N wd = 110%N) ->
  is_word wd (c :: r) = false.
Proof.
  intros Hc Hw. unfold is_word.
  destruct (list_eq_dec N.eq_dec (map lower (c :: r)) wd) as [E|]; [|reflexivity].
  exfalso. subst wd. simpl in Hw. destruct (digit_lower c Hc). tauto.
Qed.

Lemma exponent_suffix_parses ex :
  ex = [] \/ exponent_suffix ex -> exists v, exponent ex = (v, []).
Proof.
  intros [-> | (e & sg & ds & -> & He & Hsg & Hds)]; [simpl; eauto|].
  destruct Hds as [Hd Hl]. destruct ds as [|c ds]; [simpl in Hl; lia|].
  inversion Hd as [|? ? Hc Hds]; subst.
  destruct (take_sign_opt sg c ds Hsg Hc) as [b Hb].
  cbn [exponent]. rewrite He, Hb.
  assert (P : digitpart (c :: ds) = Some (c :: ds, [])).
  { rewrite <- (app_nil_r (c :: ds)) at 1.
    apply digitpart_stop; [split; assumption | exact I]. }
  rewrite P. eauto.
Qed.

Lemma ends_with_digit (w : list byte) ds :
  digits1 ds -> exists s z, w ++ ds = s ++ [z] /\ is_digit z = true.
Proof.
  intros [Hd Hl]. destruct (exists_last (l := ds)) as (s & z & ->).
  { intros ->. simpl in Hl. lia. }
  apply Forall_app in Hd. destruct Hd as [_ Hz].
  inversion Hz; subst. exists (w ++ s), z. now rewrite app_assoc.
Qed.

(** A number of the grammar is accepted by [float]. *)
Lemma grammar_parses w : number_grammar w -> exists v, of_str w = Some v.
Proof.
  intros (sg & mt & ex & -> & Hsg & (ip & d & fp & -> & Hd & Hfp & Hip) & Hex).
  assert (Hi : digits1 ip).
  { destruct Hip as [[H [H1 _]] | H]; [split|]; assumption. }
  destruct Hi as [Hid Hil]. destruct ip as [|c ip]; [simpl in Hil; lia|].
  inversion Hid as [|? ? Hc Hips]; subst.
  (* the token ends with a digit and starts with a sign or a digit *)
  assert (Hend : exists s z, sg ++ ((c :: ip) ++ d :: fp) ++ ex = s ++ [z]
                             /\ is_digit z = true).
  { destruct Hex as [-> | (e & sg2 & ds & -> & _ & _ & Hds)].
    - rewrite app_nil_r.
      replace (sg ++ (c :: ip) ++ d :: fp) with ((sg ++ (c :: ip) ++ [d]) ++ fp)
        by (rewrite <- !app_assoc; reflexivity).
      now apply ends_with_digit.
    - replace (sg ++ ((c :: ip) ++ d :: fp) ++ e :: sg2 ++ ds)
        with ((sg ++ ((c :: ip) ++ d :: fp) ++ e :: sg2) ++ ds)
        by (rewrite <- !app_assoc; reflexivity).
      now apply ends_with_digit. }
  destruct Hend as (s & z & Es & Hz).
  assert (Hstrip : strip (sg ++ ((c :: ip) ++ d :: fp) ++ ex)
                   = sg ++ ((c :: ip) ++ d :: fp) ++ ex).
  { rewrite Es. destruct s as [|a s].
    - simpl. unfold strip. simpl. rewrite (digit_not_space z Hz). simpl.
      now rewrite (digit_not_space z Hz).
    - apply strip_id; [|now apply digit_not_space].
      destruct Hsg as [-> | (sc & -> & Hsc)]; simpl in Es;
        injection Es as <- _.
      + now apply digit_not_space.
      + now apply sign_not_space. }
  unfold of_str. rewrite Hstrip.
  rewrite <- !app_assoc. cbn [app].
  destruct (take_sign_opt sg c (ip ++ d :: fp ++ ex) Hsg Hc) as [b ->].
  rewrite !not_word_digit by (auto; simpl; auto). cbn [orb].
  assert (Hstop : stops ex).
  { destruct Hex as [-> | (e & sg2 & ds & -> & He & _)]; [exact I|].
    simpl. now apply exp_stops. }
  assert (Hn : number (c :: ip ++ d :: fp ++ ex) = Some (c :: ip, fp, ex)).
  { unfold number.
    change (c :: ip ++ d :: fp ++ ex) with ((c :: ip) ++ d :: fp ++ ex).
    rewrite digitpart_stop; [| split; assumption | simpl; now apply dot_stops].
    rewrite Hd, digitpart_stop; auto. }
  rewrite Hn. destruct (exponent_suffix_parses ex Hex) as [v ->]. eauto.
Qed.

End ParseFacts.

(** ** The scanner *)

Module ScanFacts.

Import ReFacts GrammarFacts ParseFacts.

Lemma scan_disjoint r s :
  forall pos skip, StronglySorted before (scan r pos skip s).
Proof.
  induction s as [|c s IH]; intros pos skip.
  - destruct skip; simpl; [|constructor].
    destruct (match_at r []); simpl; repeat constructor.
  - destruct skip as [|n]; simpl; [|apply IH].
    destruct (match_at r (c :: s)) as [g|]; [|apply IH].
    constructor; [apply IH|].
    apply Forall_forall. intros m Hm. apply scan_spec in Hm.
    unfold before. simpl. lia.
Qed.

Lemma floats_loop_acc ms :
  forall acc, floats_loop ms acc = acc ++ floats_loop ms [].
Proof.
  induction ms as [|m ms IH]; intros acc; simpl.
  - now rewrite app_nil_r.
  - destruct (token_value m) as [v|]; [|apply IH].
    rewrite (IH (acc ++ _)), (IH [_]), <- app_assoc. reflexivity.
Qed.

Lemma floats_loop_cons m ms :
  floats_loop (m :: ms) [] =
  match token_value m with
  | Some v => (start m, v) :: floats_loop ms []
  | None => floats_loop ms []
  end.
Proof.
  simpl. destruct (token_value m); [|reflexivity].
  now rewrite floats_loop_acc.
Qed.

(** Each scanned number comes from a match, at its start. *)
Lemma floats_loop_in ms p v :
  In (p, v) (floats_loop ms []) ->
  exists m, In m ms /\ start m = p /\ token_value m = Some v.
Proof.
  induction ms as [|m ms IH]; [contradiction|].
  rewrite floats_loop_cons. destruct (token_value m) as [v'|] eqn:E.
  - intros [[= <- <-] | H]; [exists m; simpl; auto|].
    destruct (IH H) as (m' & ? & ? & ?). exists m'. simpl. auto.
  - intros H. destruct (IH H) as (m' & ? & ? & ?). exists m'. simpl. auto.
Qed.

(** When every token parses, no match is dropped. *)
Lemma floats_loop_all ms :
  (forall m, In m ms -> exists v, token_value m = Some v) ->
  map fst (floats_loop ms []) = map start ms.
Proof.
  induction ms as [|m ms IH]; intros H; [reflexivity|].
  rewrite floats_loop_cons.
  destruct (H m (or_introl eq_refl)) as [v ->]. simpl.
  f_equal. apply IH. intros m' Hm'. apply H. now right.
Qed.

Lemma match_grammar data m :
  In m (finditer FLOAT_RE data) -> number_grammar (group m).
Proof.
  intros H. apply scan_spec in H. now apply FLOAT_RE_grammar.
Qed.

Lemma match_decodes data m :
  In m (finditer FLOAT_RE data) -> decode_ascii (group m) = Some (group m).
Proof.
  intros H. unfold decode_ascii.
  now rewrite (grammar_ascii _ (match_grammar data m H)).
Qed.

Lemma match_value data m :
  In m (finditer FLOAT_RE data) ->
  exists v, of_str (group m) = Some v /\ token_value m = Some v.
Proof.
  intros H. unfold token_value. rewrite (match_decodes data m H).
  destruct (grammar_parses _ (match_grammar data m H)) as [v Hv]. eauto.
Qed.

Lemma scanner_offsets data :
  map fst (find_floats_in_bytes data) = map start (finditer FLOAT_RE data).
Proof.
  apply floats_loop_all. intros m Hm.
  destruct (match_value data m Hm) as (v & _ & Hv). eauto.
Qed.

Lemma scanner_increasing data :
  StronglySorted Z.lt (map fst (find_floats_in_bytes data)).
Proof. rewrite scanner_offsets. apply scan_starts_increasing. Qed.

End ScanFacts.

(** ** Binary64 comparisons *)

Module FloatFacts.

Lemma compare_cont_eq m1 m2 : Pos.compare_cont Eq m1 m2 = Eq -> m1 = m2.
Proof. apply Pos.compare_eq. Qed.

(** Two values compare equal when both are zeros, or they are the same
    value and not nan. *)
Lemma eqb_true x y :
  eqb x y = true ->
  (exists s1 s2, x = S754_zero s1 /\ y = S754_zero s2)
  \/ (x = y /\ x <> S754_nan).
Proof.
  unfold eqb, SFeqb.
  destruct x as [s1|s1| |s1 m1 e1], y as [s2|s2| |s2 m2 e2]; simpl;
    try discriminate;
    try (destruct s1; discriminate); try (destruct s2; discriminate).
  - intros _. left. eauto.
  - destruct s1, s2; try discriminate; intros _; right; split; congruence.
  - destruct s1, s2; try discriminate;
      destruct (Z.compare_spec e1 e2); try discriminate; subst;
      destruct (Pos.compare_cont Eq m1 m2) eqn:E; try discriminate;
      apply compare_cont_eq in E; subst; intros _; right; split; congruence.
Qed.

Lemma eqb_refl_not_nan x : x <> S754_nan -> eqb x x = true.
Proof.
  unfold eqb, SFeqb. destruct x as [s|s| |s m e]; simpl; intros H;
    try reflexivity; try congruence.
  - destruct s; reflexivity.
  - destruct s; rewrite Z.compare_refl;
      change (Pos.compare_cont Eq m m) with (Pos.compare m m);
      rewrite Pos.compare_refl; reflexivity.
Qed.

Lemma eqb_trans x y z : eqb x y = true -> eqb y z = true -> eqb x z = true.
Proof.
  intros H1 H2. apply eqb_true in H1. apply eqb_true in H2.
  destruct H1 as [(s1 & s2 & -> & ->) | [-> Hx]].
  - destruct H2 as [(s3 & s4 & _ & ->) | [<- _]]; reflexivity.
  - destruct H2 as [(s3 & s4 & -> & ->) | [<- _]]; [reflexivity|].
    now apply eqb_refl_not_nan.
Qed.

Lemma key_eqb_trans k1 k2 k3 :
  key_eqb k1 k2 = true -> key_eqb k2 k3 = true -> key_eqb k1 k3 = true.
Proof.
  unfold key_eqb. intros H1 H2.
  apply andb_prop in H1. apply andb_prop in H2.
  destruct H1 as [A1 B1], H2 as [A2 B2].
  now rewrite (eqb_trans _ _ _ A1 A2), (eqb_trans _ _ _ B1 B2).
Qed.

(** A value within the longitude range is finite. *)
Lemma lon_ok_finite v : lon_ok v = true -> is_finite v = true.
Proof.
  unfold lon_ok, leb. destruct v as [s|s| |s m e]; try reflexivity.
  - destruct s; vm_compute; discriminate.
  - vm_compute; discriminate.
Qed.

Lemma lat_ok_finite v : lat_ok v = true -> is_finite v = true.
Proof.
  unfold lat_ok, leb. destruct v as [s|s| |s m e]; try reflexivity.
  - destruct s; vm_compute; discriminate.
  - vm_compute; discriminate.
Qed.

End FloatFacts.

(** ** The pair finder *)

Module PairFacts.

Lemma emit_acc p1 p2 v1 v2 acc :
  emit p1 p2 v1 v2 acc = acc ++ emit p1 p2 v1 v2 [].
Proof.
  unfold emit.
  destruct (lon_ok v1 && lat_ok v2), (lon_ok v2 && lat_ok v1); simpl;
    rewrite <- ?app_assoc, ?app_nil_r; reflexivity.
Qed.

(** What one index pair contributes. *)
Lemma emit_nil p1 p2 v1 v2 :
  emit p1 p2 v1 v2 [] =
  (if lon_ok v1 && lat_ok v2 then [(p1, p2, v1, v2)] else [])
    ++ (if lon_ok v2 && lat_ok v1 then [(p1, p2, v2, v1)] else []).
Proof.
  unfold emit.
  destruct (lon_ok v1 && lat_ok v2), (lon_ok v2 && lat_ok v1); reflexivity.
Qed.

Lemma inner_loop_acc p1 v1 W rest :
  forall acc, inner_loop p1 v1 rest W acc = acc ++ inner_loop p1 v1 rest W [].
Proof.
  induction rest as [|[p2 v2] rest IH]; intros acc; simpl.
  - now rewrite app_nil_r.
  - destruct (p2 - p1 >? W); [now rewrite app_nil_r|].
    rewrite (IH (emit _ _ _ _ acc)), (IH (emit _ _ _ _ [])).
    rewrite (emit_acc _ _ _ _ acc), <- app_assoc. reflexivity.
Qed.

Lemma inner_loop_cons p1 v1 W p2 v2 rest :
  inner_loop p1 v1 ((p2, v2) :: rest) W [] =
  if p2 - p1 >? W then []
  else emit p1 p2 v1 v2 [] ++ inner_loop p1 v1 rest W [].
Proof.
  simpl. destruct (p2 - p1 >? W); [reflexivity|]. apply inner_loop_acc.
Qed.

Lemma outer_loop_acc W floats :
  forall acc, outer_loop floats W acc = acc ++ outer_loop floats W [].
Proof.
  induction floats as [|[p1 v1] rest IH]; intros acc; simpl.
  - now rewrite app_nil_r.
  - rewrite (IH (inner_loop _ _ _ _ acc)), (IH (inner_loop _ _ _ _ [])).
    rewrite (inner_loop_acc _ _ _ _ acc), <- app_assoc. reflexivity.
Qed.

Lemma find_cons p1 v1 rest W :
  find_coordinate_pairs ((p1, v1) :: rest) W =
  inner_loop p1 v1 rest W [] ++ find_coordinate_pairs rest W.
Proof. unfold find_coordinate_pairs. simpl. apply outer_loop_acc. Qed.

Lemma in_emit c p1 p2 v1 v2 :
  In c (emit p1 p2 v1 v2 []) ->
  cp_pos1 c = p1 /\ cp_pos2 c = p2
  /\ lon_ok (cp_lon c) = true /\ lat_ok (cp_lat c) = true
  /\ (lon_ok v1 || lat_ok v1) = true /\ (lon_ok v2 || lat_ok v2) = true.
Proof.
  rewrite emit_nil. intros H. apply in_app_or in H.
  destruct H as [H | H].
  - destruct (lon_ok v1 && lat_ok v2) eqn:E; [|contradiction].
    destruct H as [<- | []]. apply andb_prop in E. destruct E as [E1 E2].
    simpl. rewrite E1, E2, ?orb_true_r. simpl. repeat split.
  - destruct (lon_ok v2 && lat_ok v1) eqn:E; [|contradiction].
    destruct H as [<- | []]. apply andb_prop in E. destruct E as [E1 E2].
    simpl. rewrite E1, E2, ?orb_true_r. simpl. repeat split.
Qed.

(** Where an element of the inner loop's output comes from. *)
Lemma in_inner c p1 v1 W rest :
  In c (inner_loop p1 v1 rest W []) ->
  exists k p2 v2,
    nth_error rest k = Some (p2, v2) /\ p2 - p1 <= W
    /\ In c (emit p1 p2 v1 v2 []).
Proof.
  induction rest as [|[p2 v2] rest IH]; [contradiction|].
  rewrite inner_loop_cons. destruct (Z.gtb_spec (p2 - p1) W) as [Hgt|Hle]; [contradiction|].
  intros H. apply in_app_or in H. destruct H as [H | H].
  - exists O, p2, v2. auto.
  - destruct (IH H) as (k & q & u & Hk & Hw & Hc).
    exists (S k), q, u. auto.
Qed.

(** Where an emitted pair comes from. *)
Lemma in_find c W floats :
  In c (find_coordinate_pairs floats W) ->
  exists i j p1 v1 p2 v2,
    (i < j)%nat
    /\ nth_error floats i = Some (p1, v1) /\ nth_error floats j = Some (p2, v2)
    /\ p2 - p1 <= W /\ In c (emit p1 p2 v1 v2 []).
Proof.
  induction floats as [|[p1 v1] rest IH]; [contradiction|].
  rewrite find_cons. intros H. apply in_app_or in H. destruct H as [H | H].
  - apply in_inner in H. destruct H as (k & p2 & v2 & Hk & Hw & Hc).
    exists O, (S k), p1, v1, p2, v2. repeat split; auto. lia.
  - destruct (IH H) as (i & j & q1 & u1 & q2 & u2 & Hij & Hi & Hj & Hw & Hc).
    exists (S i), (S j), q1, u1, q2, u2. repeat split; auto. lia.
Qed.

Lemma sorted_tail {R : Z -> Z -> Prop} p (v : float) rest :
  StronglySorted R (map fst ((p, v) :: rest)) ->
  StronglySorted R (map fst rest)
  /\ forall k q u, nth_error rest k = Some (q, u) -> R p q.
Proof.
  simpl. intros H. apply StronglySorted_inv in H. destruct H as [Hs Hf].
  split; [assumption|]. intros k q u Hk.
  rewrite Forall_forall in Hf. apply Hf.
  apply nth_error_In in Hk. apply (in_map fst) in Hk. exact Hk.
Qed.

(** In a list ordered by offset, a later index has the later offset. *)
Lemma sorted_nth {R : Z -> Z -> Prop} (floats : list float_match) :
  StronglySorted R (map fst floats) ->
  forall i j p1 v1 p2 v2,
    (i < j)%nat ->
    nth_error floats i = Some (p1, v1) -> nth_error floats j = Some (p2, v2) ->
    R p1 p2.
Proof.
  induction floats as [|[p v] rest IH]; intros Hs i j p1 v1 p2 v2 Hij Hi Hj.
  - destruct i; discriminate.
  - apply sorted_tail in Hs. destruct Hs as [Hs Hf].
    destruct j as [|j]; [lia|]. destruct i as [|i].
    + simpl in Hi. injection Hi as <- <-. exact (Hf j p2 v2 Hj).
    + simpl in Hi, Hj. apply (IH Hs i j p1 v1 p2 v2); auto. lia.
Qed.

Lemma filter_none {A} (f : A -> bool) l :
  (forall x, In x l -> f x = false) -> filter f l = [].
Proof.
  induction l as [|x l IH]; intros H; [reflexivity|].
  simpl. rewrite (H x (or_introl eq_refl)). apply IH.
  intros y Hy. apply H. now right.
Qed.

Lemma filter_all {A} (f : A -> bool) l :
  (forall x, In x l -> f x = true) -> filter f l = l.
Proof.
  induction l as [|x l IH]; intros H; [reflexivity|].
  simpl. rewrite (H x (or_introl eq_refl)). f_equal. apply IH.
  intros y Hy. apply H. now right.
Qed.

Lemma filter_emit_same p1 p2 v1 v2 :
  filter (at_offsets p1 p2) (emit p1 p2 v1 v2 []) = emit p1 p2 v1 v2 [].
Proof.
  apply filter_all. intros c Hc. apply in_emit in Hc.
  destruct Hc as (H1 & H2 & _). unfold at_offsets.
  now rewrite H1, H2, !Z.eqb_refl.
Qed.

Lemma filter_emit_other p1 p2 q1 q2 v1 v2 :
  q1 <> p1 \/ q2 <> p2 ->
  filter (at_offsets p1 p2) (emit q1 q2 v1 v2 []) = [].
Proof.
  intros H. apply filter_none. intros c Hc. apply in_emit in Hc.
  destruct Hc as (H1 & H2 & _). unfold at_offsets. rewrite H1, H2.
  destruct (Z.eqb_spec q1 p1), (Z.eqb_spec q2 p2); simpl; auto. lia.
Qed.

Lemma filter_inner_none p1 p2 q v W rest :
  (q <> p1 \/ forall k r u, nth_error rest k = Some (r, u) -> r <> p2) ->
  filter (at_offsets p1 p2) (inner_loop q v rest W []) = [].
Proof.
  intros H. apply filter_none. intros c Hc. apply in_inner in Hc.
  destruct Hc as (k & r & u & Hk & _ & Hc). apply in_emit in Hc.
  destruct Hc as (H1 & H2 & _). unfold at_offsets. rewrite H1, H2.
  destruct (Z.eqb_spec q p1) as [E1|], (Z.eqb_spec r p2) as [E2|]; simpl; auto.
  destruct H as [H | H]; [contradiction|]. exfalso. exact (H k r u Hk E2).
Qed.

(** Within the window, the inner loop reaches index [k] and emits for it. *)
Lemma filter_inner p1 v1 W rest :
  StronglySorted Z.lt (map fst rest) ->
  forall k p2 v2,
    nth_error rest k = Some (p2, v2) -> p2 - p1 <= W ->
    filter (at_offsets p1 p2) (inner_loop p1 v1 rest W []) = emit p1 p2 v1 v2 [].
Proof.
  induction rest as [|[q u] rest IH]; intros Hs k p2 v2 Hk Hw.
  - destruct k; discriminate.
  - apply sorted_tail in Hs. destruct Hs as [Hs Hf].
    rewrite inner_loop_cons. destruct k as [|k].
    + simpl in Hk. injection Hk as -> ->.
      destruct (Z.gtb_spec (p2 - p1) W); [lia|].
      rewrite filter_app, filter_emit_same, filter_inner_none, app_nil_r; auto.
      right. intros k r u Hr. apply Hf in Hr. lia.
    + simpl in Hk. assert (Hq : q < p2) by exact (Hf k p2 v2 Hk).
      destruct (Z.gtb_spec (q - p1) W); [lia|].
      rewrite filter_app, filter_emit_other by (right; lia).
      simpl. apply (IH Hs k); auto.
Qed.

Lemma filter_find_none p1 p2 W floats :
  (forall k q u, nth_error floats k = Some (q, u) -> q <> p1) ->
  filter (at_offsets p1 p2) (find_coordinate_pairs floats W) = [].
Proof.
  intros H. apply filter_none. intros c Hc. apply in_find in Hc.
  destruct Hc as (i & j & q1 & u1 & q2 & u2 & _ & Hi & _ & _ & Hc).
  apply in_emit in Hc. destruct Hc as (H1 & H2 & _). unfold at_offsets.
  rewrite H1, H2.
  destruct (Z.eqb_spec q1 p1) as [E1|]; simpl; auto. exfalso. exact (H i q1 u1 Hi E1).
Qed.

(** The pairs emitted at the offsets of an in-window index pair. *)
Lemma filter_find W floats :
  StronglySorted Z.lt (map fst floats) ->
  forall i j p1 v1 p2 v2,
    (i < j)%nat ->
    nth_error floats i = Some (p1, v1) -> nth_error floats j = Some (p2, v2) ->
    p2 - p1 <= W ->
    filter (at_offsets p1 p2) (find_coordinate_pairs floats W)
    = emit p1 p2 v1 v2 [].
Proof.
  induction floats as [|[q u] rest IH]; intros Hs i j p1 v1 p2 v2 Hij Hi Hj Hw.
  - destruct i; discriminate.
  - apply sorted_tail in Hs. destruct Hs as [Hs Hf].
    rewrite find_cons, filter_app.
    destruct j as [|j]; [lia|]. simpl in Hj. destruct i as [|i].
    + simpl in Hi. injection Hi as -> ->.
      rewrite (filter_inner p1 v1 W rest Hs j p2 v2 Hj Hw).
      rewrite filter_find_none, app_nil_r; auto.
      intros k r w Hr. apply Hf in Hr. lia.
    + simpl in Hi. assert (Hq : q < p1) by exact (Hf i p1 v1 Hi).
      rewrite filter_inner_none by (left; lia). simpl.
      apply (IH Hs i j); auto. lia.
Qed.

Lemma in_find_range c W floats :
  In c (find_coordinate_pairs floats W) ->
  lon_ok (cp_lon c) = true /\ lat_ok (cp_lat c) = true.
Proof.
  intros H. apply in_find in H.
  destruct H as (i & j & p1 & v1 & p2 & v2 & _ & _ & _ & _ & Hc).
  apply in_emit in Hc. tauto.
Qed.

(** With strictly increasing offsets, [pos1 < pos2 <= pos1 + W]. *)
Lemma in_find_offsets {R : Z -> Z -> Prop} c W floats :
  StronglySorted R (map fst floats) ->
  In c (find_coordinate_pairs floats W) ->
  R (cp_pos1 c) (cp_pos2 c) /\ cp_pos2 c - cp_pos1 c <= W.
Proof.
  intros Hs H. apply in_find in H.
  destruct H as (i & j & p1 & v1 & p2 & v2 & Hij & Hi & Hj & Hw & Hc).
  apply in_emit in Hc. destruct Hc as (-> & -> & _).
  split; [|assumption]. exact (sorted_nth floats Hs i j p1 v1 p2 v2 Hij Hi Hj).
Qed.

Lemma sorted_app {A} (R : A -> A -> Prop) l1 l2 :
  StronglySorted R l1 -> StronglySorted R l2 ->
  (forall a b, In a l1 -> In b l2 -> R a b) ->
  StronglySorted R (l1 ++ l2).
Proof.
  induction l1 as [|x l1 IH]; intros H1 H2 H; [assumption|].
  apply StronglySorted_inv in H1. destruct H1 as [H1 Hx].
  simpl. constructor.
  - apply IH; auto. intros a b Ha Hb. apply H; [now right | assumption].
  - apply Forall_app. split; [assumption|].
    apply Forall_forall. intros b Hb. apply H; [now left | assumption].
Qed.

Lemma sorted_const {A} (f : A -> Z) z l :
  (forall x, In x l -> f x = z) -> StronglySorted Z.le (map f l).
Proof.
  induction l as [|x l IH]; intros H; simpl; constructor.
  - apply IH. intros y Hy. apply H. now right.
  - apply Forall_forall. intros b Hb. apply in_map_iff in Hb.
    destruct Hb as (y & <- & Hy).
    rewrite (H x (or_introl eq_refl)), (H y (or_intror Hy)). lia.
Qed.

(** Pairs are emitted in ascending order of their first offset. *)
Lemma find_sorted W floats :
  StronglySorted Z.lt (map fst floats) ->
  StronglySorted Z.le (map cp_pos1 (find_coordinate_pairs floats W)).
Proof.
  induction floats as [|[p v] rest IH]; intros Hs; [constructor|].
  apply sorted_tail in Hs. destruct Hs as [Hs Hf].
  rewrite find_cons, map_app.
  assert (Hin : forall c, In c (inner_loop p v rest W []) -> cp_pos1 c = p).
  { intros c Hc. apply in_inner in Hc. destruct Hc as (k & q & u & _ & _ & Hc).
    apply in_emit in Hc. tauto. }
  apply sorted_app; [now apply (sorted_const _ p) | now apply IH |].
  intros a b Ha Hb. apply in_map_iff in Ha, Hb.
  destruct Ha as (c & <- & Hc), Hb as (d & <- & Hd).
  rewrite (Hin c Hc). apply in_find in Hd.
  destruct Hd as (i & j & q1 & u1 & q2 & u2 & _ & Hi & _ & _ & Hd).
  apply in_emit in Hd. destruct Hd as (-> & _).
  apply Hf in Hi. lia.
Qed.

End PairFacts.

(** ** Deduplication keeps first occurrences *)

Module DedupFacts.

Import FloatFacts.

Lemma dedup_loop_acc pairs :
  forall unique seen,
    dedup_loop pairs unique seen = unique ++ dedup_loop pairs [] seen.
Proof.
  induction pairs as [|[[[p1 p2] lon] lat] rest IH]; intros unique seen; simpl.
  - now rewrite app_nil_r.
  - destruct (key_in (canonical_pair lon lat) seen); [apply IH|].
    rewrite (IH (unique ++ _)), (IH [_]), <- app_assoc. reflexivity.
Qed.

Lemma dedup_loop_cons c rest seen :
  dedup_loop (c :: rest) [] seen =
  if key_in (pair_key c) seen
  then dedup_loop rest [] seen
  else to_candidate c :: dedup_loop rest [] (pair_key c :: seen).
Proof.
  destruct c as [[[p1 p2] lon] lat]. simpl. unfold pair_key. simpl.
  destruct (key_in (canonical_pair lon lat) seen); [reflexivity|].
  now rewrite dedup_loop_acc.
Qed.

Lemma tracks_nil : tracks [] [].
Proof. intros k. reflexivity. Qed.

Lemma tracks_skip seen earlier c :
  tracks seen earlier -> key_in (pair_key c) seen = true ->
  tracks seen (earlier ++ [c]).
Proof.
  intros T Hc k. rewrite existsb_app. simpl. rewrite orb_false_r, (T k).
  destruct (key_eqb k (pair_key c)) eqn:E; [|now rewrite orb_false_r].
  rewrite orb_true_r. rewrite (T (pair_key c)) in Hc.
  apply existsb_exists in Hc. destruct Hc as (d & Hd & Hcd).
  apply existsb_exists. exists d. split; [assumption|].
  exact (key_eqb_trans _ _ _ E Hcd).
Qed.

Lemma tracks_add seen earlier c :
  tracks seen earlier -> tracks (pair_key c :: seen) (earlier ++ [c]).
Proof.
  intros T k. rewrite existsb_app. simpl. rewrite orb_false_r, <- (T k).
  unfold key_in. simpl. apply orb_comm.
Qed.

Lemma dedup_loop_first rest :
  forall earlier seen,
    tracks seen earlier ->
    dedup_loop rest [] seen =
    map to_candidate
        (map snd
             (filter (fun ic => negb (occurred_before (earlier ++ rest)
                                                      (fst ic) (snd ic)))
                     (combine (seq (length earlier) (length rest)) rest))).
Proof.
  induction rest as [|c rest IH]; intros earlier seen T; [reflexivity|].
  rewrite dedup_loop_cons. cbn [length seq combine filter fst snd].
  assert (Hocc : occurred_before (earlier ++ c :: rest) (length earlier) c
                 = key_in (pair_key c) seen).
  { unfold occurred_before.
    rewrite firstn_app, Nat.sub_diag, firstn_all. simpl.
    rewrite app_nil_r. symmetry. apply T. }
  rewrite Hocc.
  assert (Hlen : S (length earlier) = length (earlier ++ [c])).
  { rewrite length_app. simpl. lia. }
  assert (Happ : earlier ++ c :: rest = (earlier ++ [c]) ++ rest).
  { now rewrite <- app_assoc. }
  destruct (key_in (pair_key c) seen) eqn:E; cbn [negb map snd].
  - rewrite Hlen, Happ. apply IH. now apply tracks_skip.
  - rewrite Hlen, Happ. f_equal. apply IH. now apply tracks_add.
Qed.

Lemma dedup_first pairs :
  dedup pairs = map to_candidate (first_occurrences pairs).
Proof. exact (dedup_loop_first pairs [] [] tracks_nil). Qed.

Lemma in_dedup_loop pairs :
  forall seen u,
    In u (dedup_loop pairs [] seen) -> exists c, In c pairs /\ u = to_candidate c.
Proof.
  induction pairs as [|c rest IH]; intros seen u H; [contradiction|].
  rewrite dedup_loop_cons in H.
  destruct (key_in (pair_key c) seen).
  - destruct (IH _ _ H) as (d & ? & ?). exists d. simpl. auto.
  - destruct H as [<- | H]; [exists c; simpl; auto|].
    destruct (IH _ _ H) as (d & ? & ?). exists d. simpl. auto.
Qed.

Lemma in_dedup pairs u :
  In u (dedup pairs) -> exists c, In c pairs /\ u = to_candidate c.
Proof. apply in_dedup_loop. Qed.

Lemma to_candidate_pos1 c : cand_pos1 (to_candidate c) = cp_pos1 c.
Proof. destruct c as [[[p1 p2] lon] lat]. reflexivity. Qed.
Lemma to_candidate_pos2 c : cand_pos2 (to_candidate c) = cp_pos2 c.
Proof. destruct c as [[[p1 p2] lon] lat]. reflexivity. Qed.
Lemma to_candidate_lon c : cand_lon (to_candidate c) = cp_lon c.
Proof. destruct c as [[[p1 p2] lon] lat]. reflexivity. Qed.
Lemma to_candidate_lat c : cand_lat (to_candidate c) = cp_lat c.
Proof. destruct c as [[[p1 p2] lon] lat]. reflexivity. Qed.

(** Dropping pairs keeps the order of the first offsets. *)
Lemma dedup_loop_sorted pairs :
  forall seen,
    StronglySorted Z.le (map cp_pos1 pairs) ->
    StronglySorted Z.le (map cand_pos1 (dedup_loop pairs [] seen)).
Proof.
  induction pairs as [|c rest IH]; intros seen Hs; [constructor|].
  simpl in Hs. apply StronglySorted_inv in Hs. destruct Hs as [Hs Hf].
  rewrite dedup_loop_cons. destruct (key_in (pair_key c) seen); [now apply IH|].
  simpl. constructor; [now apply IH|].
  apply Forall_forall. intros z Hz. apply in_map_iff in Hz.
  destruct Hz as (u & <- & Hu). apply in_dedup_loop in Hu.
  destruct Hu as (d & Hd & ->). rewrite !to_candidate_pos1.
  rewrite Forall_forall in Hf. apply Hf. now apply in_map.
Qed.

End DedupFacts.

(** ** Selection *)

Module SelectFacts.

Lemma target_loop_some l c :
  target_loop l = Some c ->
  exists pre post,
    l = pre ++ c :: post /\ near_target c = true
    /\ forall x, In x pre -> near_target x = false.
Proof.
  induction l as [|y l IH]; [discriminate|]. simpl.
  destruct (near_target y) eqn:E.
  - intros [= <-]. exists [], l. repeat split; auto. intros x [].
  - intros H. destruct (IH H) as (pre & post & -> & Hc & Hpre).
    exists (y :: pre), post. repeat split; auto.
    intros x [<- | Hx]; auto.
Qed.

Lemma target_loop_none l :
  (forall x, In x l -> near_target x = false) -> target_loop l = None.
Proof.
  induction l as [|y l IH]; intros H; [reflexivity|]. simpl.
  rewrite (H y (or_introl eq_refl)). apply IH. intros x Hx. apply H. now right.
Qed.

Lemma target_loop_first pre c post :
  (forall x, In x pre -> near_target x = false) -> near_target c = true ->
  target_loop (pre ++ c :: post) = Some c.
Proof.
  induction pre as [|y pre IH]; intros Hpre Hc; simpl.
  - now rewrite Hc.
  - rewrite (Hpre y (or_introl eq_refl)). apply IH; auto.
    intros x Hx. apply Hpre. now right.
Qed.

Lemma target_loop_exists l c :
  In c l -> near_target c = true -> exists d, target_loop l = Some d.
Proof.
  induction l as [|y l IH]; [contradiction|]. simpl.
  destruct (near_target y) eqn:E; [eauto|].
  intros [-> | H] Hc; [congruence | auto].
Qed.

Section Sorting.

Context {A : Type} (key : A -> Z).

Lemma hd_insert x l :
  hd_error (insert_sorted key x l) =
  match hd_error l with
  | None => Some x
  | Some y => if key x <=? key y then Some x else Some y
  end.
Proof.
  destruct l as [|y l]; [reflexivity|]. simpl.
  destruct (key x <=? key y); reflexivity.
Qed.

Lemma sorted_nil l : sorted key l = [] -> l = [].
Proof.
  destruct l as [|x l]; [reflexivity|]. simpl.
  destruct (sorted key l) as [|y s]; simpl; [discriminate|].
  destruct (key x <=? key y); discriminate.
Qed.

(** The head of the sorted list is the first element of least key. *)
Lemma hd_sorted l :
  forall c,
    hd_error (sorted key l) = Some c ->
    exists pre post,
      l = pre ++ c :: post
      /\ (forall x, In x pre -> key c < key x)
      /\ (forall x, In x post -> key c <= key x).
Proof.
  induction l as [|x l IH]; intros c H; [discriminate|].
  simpl in H. rewrite hd_insert in H.
  destruct (hd_error (sorted key l)) as [y|] eqn:E.
  - destruct (IH y eq_refl) as (pre & post & -> & Hpre & Hpost).
    destruct (Z.leb_spec (key x) (key y)); injection H as <-.
    + exists [], (pre ++ y :: post). repeat split; [intros ? [] |].
      intros z Hz. apply in_app_or in Hz. destruct Hz as [Hz | [<- | Hz]].
      * specialize (Hpre z Hz). lia.
      * assumption.
      * specialize (Hpost z Hz). lia.
    + exists (x :: pre), post. repeat split; auto.
      intros z [<- | Hz]; auto.
  - injection H as <-.
    assert (l = []) as ->.
    { apply sorted_nil. destruct (sorted key l); [reflexivity | discriminate]. }
    exists [], []. repeat split; intros ? [].
Qed.

Lemma hd_sorted_exists x l : exists c, hd_error (sorted key (x :: l)) = Some c.
Proof.
  simpl. rewrite hd_insert.
  destruct (hd_error (sorted key l)) as [y|]; [|eauto].
  destruct (key x <=? key y); eauto.
Qed.

Lemma insert_perm x l : Permutation (insert_sorted key x l) (x :: l).
Proof.
  induction l as [|y l IH]; simpl; [reflexivity|].
  destruct (key x <=? key y); [reflexivity|].
  rewrite IH. apply perm_swap.
Qed.

(** [sorted] rearranges its argument and leaves it in ascending order
    of the key. *)
Lemma sorted_perm l : Permutation (sorted key l) l.
Proof.
  induction l as [|x l IH]; simpl; [reflexivity|].
  rewrite insert_perm. now constructor.
Qed.

Lemma insert_ordered x l :
  StronglySorted Z.le (map key l) ->
  StronglySorted Z.le (map key (insert_sorted key x l)).
Proof.
  induction l as [|y l IH]; intros Hs; simpl; [repeat constructor|].
  simpl in Hs. apply StronglySorted_inv in Hs. destruct Hs as [Hs Hf].
  destruct (Z.leb_spec (key x) (key y)); simpl.
  - constructor; [now constructor|].
    constructor; [assumption|].
    apply Forall_forall. intros z Hz. rewrite Forall_forall in Hf.
    specialize (Hf z Hz). lia.
  - constructor; [now apply IH|].
    apply (Permutation_Forall
             (Permutation_sym (Permutation_map key (insert_perm x l)))).
    simpl. constructor; [lia | assumption].
Qed.

Lemma sorted_ordered l : StronglySorted Z.le (map key (sorted key l)).
Proof.
  induction l as [|x l IH]; simpl; [constructor|]. now apply insert_ordered.
Qed.

(** Sorting a list that is already in order changes nothing. *)
Lemma sorted_id l :
  StronglySorted Z.le (map key l) -> sorted key l = l.
Proof.
  induction l as [|x l IH]; intros Hs; [reflexivity|].
  simpl in Hs. apply StronglySorted_inv in Hs. destruct Hs as [Hs Hf].
  simpl. rewrite (IH Hs). destruct l as [|y l]; [reflexivity|].
  simpl. inversion Hf as [|? ? Hxy _]; subst.
  apply Z.leb_le in Hxy. now rewrite Hxy.
Qed.

End Sorting.

Lemma in_select unique c : select unique = Some c -> In c unique.
Proof.
  unfold select. destruct (target_loop unique) as [d|] eqn:E.
  - intros [= <-]. apply target_loop_some in E.
    destruct E as (pre & post & -> & _). apply in_or_app. right. now left.
  - unfold fallback. destruct unique as [|u l]; [discriminate|].
    intros H. apply hd_sorted in H. destruct H as (pre & post & -> & _).
    apply in_or_app. right. now left.
Qed.

End SelectFacts.

(** ** The text written *)

Module FormatFacts.

Lemma digit_char_ok k : is_digit_char (digit_char (k mod 10)) = true.
Proof.
  unfold is_digit_char, digit_char.
  pose proof (Z.mod_pos_bound k 10 ltac:(lia)) as Hb.
  rewrite N_ascii_embedding by lia.
  apply andb_true_intro. split; apply N.leb_le; lia.
Qed.

Lemma all_digits_app s1 s2 :
  all_digits (s1 ++ s2) = all_digits s1 && all_digits s2.
Proof.
  induction s1 as [|c s1 IH]; simpl; [reflexivity|].
  now rewrite IH, andb_assoc.
Qed.

Lemma length_append s1 s2 :
  String.length (s1 ++ s2) = (String.length s1 + String.length s2)%nat.
Proof. induction s1 as [|c s1 IH]; simpl; [reflexivity | now rewrite IH]. Qed.

Lemma digits_fixed_ok n :
  forall k, all_digits (digits_fixed n k) = true
            /\ String.length (digits_fixed n k) = n.
Proof.
  induction n as [|n IH]; intros k; simpl; [auto|].
  destruct (IH (k / 10)) as [Hd Hl].
  rewrite all_digits_app, length_append, Hd, Hl. simpl.
  rewrite digit_char_ok. split; [reflexivity | lia].
Qed.

Lemma digits_of_fuel_ok fuel :
  forall k acc,
    all_digits acc = true ->
    all_digits (digits_of_fuel fuel k acc) = true
    /\ (acc <> EmptyString -> digits_of_fuel fuel k acc <> EmptyString).
Proof.
  induction fuel as [|fuel IH]; intros k acc Hacc; simpl; [auto|].
  assert (Hacc' : all_digits (String (digit_char (k mod 10)) acc) = true).
  { simpl. now rewrite digit_char_ok, Hacc. }
  destruct (k / 10 =? 0).
  - split; [assumption | discriminate].
  - destruct (IH (k / 10) _ Hacc') as [Hd Hn].
    split; [assumption|]. intros _. apply Hn. discriminate.
Qed.

Lemma digits_of_ok k :
  all_digits (digits_of k) = true /\ digits_of k <> EmptyString.
Proof.
  unfold digits_of. simpl.
  assert (Hacc' : all_digits (String (digit_char (k mod 10)) EmptyString) = true).
  { simpl. now rewrite digit_char_ok. }
  destruct (k / 10 =? 0); [split; [assumption | discriminate]|].
  destruct (digits_of_fuel_ok (Z.to_nat (Z.log2 k)) (k / 10) _ Hacc') as [Hd Hn].
  split; [assumption|]. apply Hn. discriminate.
Qed.

Lemma sign_str_cases s : sign_str s = EmptyString \/ sign_str s = "-"%string.
Proof. destruct s; auto. Qed.

(** A finite value is written with exactly seven decimal places. *)
Lemma format_7f_finite x : is_finite x = true -> seven_places (format_7f x).
Proof.
  destruct x as [s|s| |s m e]; try discriminate; intros _; simpl.
  - exists (sign_str s), "0"%string, "0000000"%string.
    repeat split; auto using sign_str_cases. discriminate.
  - destruct (digits_of_ok (scaled m e 7 / 10 ^ 7)) as [Hd Hn].
    destruct (digits_fixed_ok 7 (scaled m e 7 mod 10 ^ 7)) as [Hf Hl].
    exists (sign_str s), (digits_of (scaled m e 7 / 10 ^ 7)),
      (digits_fixed 7 (scaled m e 7 mod 10 ^ 7)).
    repeat split; auto using sign_str_cases.
Qed.

Lemma list_byte_of_string_app s1 s2 :
  list_byte_of_string (s1 ++ s2) = list_byte_of_string s1 ++ list_byte_of_string s2.
Proof.
  induction s1 as [|c s1 IH]; [reflexivity|].
  change (list_byte_of_string (String c s1 ++ s2))
    with (byte_of_ascii c :: list_byte_of_string (s1 ++ s2)).
  rewrite IH. reflexivity.
Qed.

End FormatFacts.

(** ** The files touched by a run *)

Module RunFacts.

Lemma update_same f p n : update f p n p = Some n.
Proof. unfold update. now rewrite String.eqb_refl. Qed.

Lemma open_w_empty f p f1 : open_w f p = inr f1 -> f1 p = Some (File []).
Proof.
  unfold open_w. destruct (f p) as [[data|]|].
  - intros [= <-]. apply update_same.
  - discriminate.
  - destruct (parent_ok f p); [|discriminate]. intros [= <-]. apply update_same.
Qed.

Lemma write_content f p old text :
  f p = Some (File old) ->
  write f p text p = Some (File (old ++ list_byte_of_string text)).
Proof. intros H. unfold write. rewrite H. apply update_same. Qed.

Lemma read_exists f p data : read_bytes f p = inr data -> path_exists f p = true.
Proof.
  unfold read_bytes, path_exists. destruct (f p) as [[d|]|]; try discriminate.
  reflexivity.
Qed.

(** Every selection of a run lies in the coordinate ranges. *)
Lemma choose_range data c :
  choose data = Some c ->
  lon_ok (cand_lon c) = true /\ lat_ok (cand_lat c) = true.
Proof.
  unfold choose. intros H. apply SelectFacts.in_select in H.
  apply DedupFacts.in_dedup in H. destruct H as (d & Hd & ->).
  rewrite DedupFacts.to_candidate_lon, DedupFacts.to_candidate_lat.
  exact (PairFacts.in_find_range d _ _ Hd).
Qed.

Lemma write_result_some f1 out inp c :
  f1 out = Some (File []) ->
  files (write_result f1 out inp (Some c)) out
  = Some (File (list_byte_of_string
                  ("longitude,latitude" ++ nl
                   ++ format_7f (cand_lon c) ++ "," ++ format_7f (cand_lat c)
                   ++ nl))).
Proof.
  intros Hempty. destruct c as [[[lon lat] p1] p2]. simpl.
  rewrite (write_content _ _ (list_byte_of_string header_line)).
  - unfold header_line, coord_line.
    rewrite <- FormatFacts.list_byte_of_string_app. reflexivity.
  - exact (write_content _ _ [] header_line Hempty).
Qed.

Lemma write_result_none f1 out inp :
  f1 out = Some (File []) ->
  files (write_result f1 out inp None) out
  = Some (File (list_byte_of_string
                  ("No longitude/latitude found in " ++ inp ++ nl))).
Proof. intros Hempty. exact (write_content _ _ [] _ Hempty). Qed.

(** A run that reads its input and opens its output is the writing of
    the selection made from the bytes read. *)
Lemma main_writes expanduser a f data f1 :
  read_bytes f (expanduser (input a)) = inr data ->
  open_w f (expanduser (output a)) = inr f1 ->
  main expanduser a f
  = write_result f1 (expanduser (output a)) (expanduser (input a)) (choose data).
Proof.
  intros Hr Hw. unfold main. now rewrite (read_exists _ _ _ Hr), Hr, Hw.
Qed.

End RunFacts.

(** * Main results *)

(** C1.  When some candidate lies within tolerance of the target in
    latitude and in longitude, the selector returns the first such
    candidate of the list, and what follows that candidate has no
    influence on the result, be it closer to the target or not. *)
Theorem select_first_within_tolerance (unique : list candidate) (c0 : candidate) :
  In c0 unique -> near_target c0 = true ->
  exists pre c post,
    unique = pre ++ c :: post
    /\ near_target c = true
    /\ (forall x, In x pre -> near_target x = false)
    /\ select unique = Some c
    /\ (forall post', select (pre ++ c :: post') = Some c).
Proof.
  intros Hin Hnear.
  destruct (SelectFacts.target_loop_exists unique c0 Hin Hnear) as [c Hc].
  destruct (SelectFacts.target_loop_some unique c Hc) as (pre & post & E & Hn & Hpre).
  exists pre, c, post. repeat split; auto.
  - unfold select. now rewrite Hc.
  - intros post'. unfold select.
    now rewrite (SelectFacts.target_loop_first pre c post' Hpre Hn).
Qed.

Lemma select_first_within_tolerance_witness :
  In near_b [far_a; near_a; near_b] /\ near_target near_b = true
  /\ exists pre c post,
      [far_a; near_a; near_b] = pre ++ c :: post
      /\ near_target c = true
      /\ (forall x, In x pre -> near_target x = false)
      /\ select [far_a; near_a; near_b] = Some c
      /\ (forall post', select (pre ++ c :: post') = Some c).
Proof.
  assert (Hin : In near_b [far_a; near_a; near_b]) by (simpl; auto).
  assert (Hnear : near_target near_b = true) by (vm_compute; reflexivity).
  split; [exact Hin|]. split; [exact Hnear|].
  exact (select_first_within_tolerance [far_a; near_a; near_b] near_b Hin Hnear).
Defined.

(** C2.  When the list is not empty and no candidate lies within
    tolerance, the selector returns the candidate of least
    [min(pos1, pos2)], and among several of that least value the one that
    comes first in the list. *)
Theorem select_fallback_earliest (unique : list candidate) :
  unique <> [] ->
  (forall x, In x unique -> near_target x = false) ->
  exists pre c post,
    unique = pre ++ c :: post
    /\ select unique = Some c
    /\ (forall x, In x pre -> sort_key c < sort_key x)
    /\ (forall x, In x post -> sort_key c <= sort_key x).
Proof.
  intros Hne Hfar. destruct unique as [|u l]; [congruence|].
  destruct (SelectFacts.hd_sorted_exists sort_key u l) as [c Hc].
  destruct (SelectFacts.hd_sorted sort_key (u :: l) c Hc) as (pre & post & E & Hpre & Hpost).
  exists pre, c, post. repeat split; auto.
  unfold select. rewrite (SelectFacts.target_loop_none _ Hfar). exact Hc.
Qed.

Lemma select_fallback_earliest_witness :
  [far_a; far_b; far_c] <> []
  /\ (forall x, In x [far_a; far_b; far_c] -> near_target x = false)
  /\ exists pre c post,
      [far_a; far_b; far_c] = pre ++ c :: post
      /\ select [far_a; far_b; far_c] = Some c
      /\ (forall x, In x pre -> sort_key c < sort_key x)
      /\ (forall x, In x post -> sort_key c <= sort_key x).
Proof.
  assert (Hne : [far_a; far_b; far_c] <> []) by discriminate.
  assert (Hfar : forall x, In x [far_a; far_b; far_c] -> near_target x = false).
  { intros x [<- | [<- | [<- | []]]]; vm_compute; reflexivity. }
  split; [exact Hne|]. split; [exact Hfar|].
  exact (select_fallback_earliest [far_a; far_b; far_c] Hne Hfar).
Defined.

(** C3.  On a list of floats with strictly increasing offsets, for every
    index pair [i < j] within the window, the pairs emitted at the two
    offsets are the direct pair, present exactly when [v1] is a longitude
    and [v2] a latitude, followed by the swapped pair, present exactly
    when [v2] is a longitude and [v1] a latitude; and every emitted pair
    has its longitude in [-180, 180] and its latitude in [-90, 90]. *)
Theorem pair_finder_emits (floats : list float_match) (W : Z) :
  StronglySorted Z.lt (map fst floats) ->
  (forall i j p1 v1 p2 v2,
      (i < j)%nat ->
      nth_error floats i = Some (p1, v1) -> nth_error floats j = Some (p2, v2) ->
      p2 - p1 <= W ->
      filter (at_offsets p1 p2) (find_coordinate_pairs floats W)
      = (if lon_ok v1 && lat_ok v2 then [(p1, p2, v1, v2)] else [])
          ++ (if lon_ok v2 && lat_ok v1 then [(p1, p2, v2, v1)] else [])
      /\ (In (p1, p2, v1, v2) (find_coordinate_pairs floats W)
          <-> lon_ok v1 && lat_ok v2 = true)
      /\ (In (p1, p2, v2, v1) (find_coordinate_pairs floats W)
          <-> lon_ok v2 && lat_ok v1 = true))
  /\ (forall c, In c (find_coordinate_pairs floats W) ->
                leb (neg f180) (cp_lon c) && leb (cp_lon c) f180 = true
                /\ leb (neg f90) (cp_lat c) && leb (cp_lat c) f90 = true).
Proof.
  intros Hs. split; [|intros c Hc; exact (PairFacts.in_find_range c W floats Hc)].
  intros i j p1 v1 p2 v2 Hij Hi Hj Hw.
  pose proof (PairFacts.filter_find W floats Hs i j p1 v1 p2 v2 Hij Hi Hj Hw) as F.
  rewrite PairFacts.emit_nil in F.
  assert (Hmem : forall x, at_offsets p1 p2 x = true ->
                           (In x (find_coordinate_pairs floats W) <->
                            In x (filter (at_offsets p1 p2)
                                         (find_coordinate_pairs floats W)))).
  { intros x Hx. rewrite filter_In. tauto. }
  assert (Hat : forall a b, at_offsets p1 p2 (p1, p2, a, b) = true).
  { intros a b. unfold at_offsets. simpl. now rewrite !Z.eqb_refl. }
  split; [exact F|]. split.
  - rewrite (Hmem _ (Hat v1 v2)), F. split.
    + intros H. apply in_app_or in H. destruct H as [H | H].
      * destruct (lon_ok v1 && lat_ok v2); [reflexivity | contradiction].
      * destruct (lon_ok v2 && lat_ok v1) eqn:E; [|contradiction].
        destruct H as [[= -> ] | []]. rewrite <- E.
        apply andb_prop in E. destruct E as [E1 E2]. now rewrite E1, E2.
    + intros ->. apply in_or_app. left. now left.
  - rewrite (Hmem _ (Hat v2 v1)), F. split.
    + intros H. apply in_app_or in H. destruct H as [H | H].
      * destruct (lon_ok v1 && lat_ok v2) eqn:E; [|contradiction].
        destruct H as [[= -> ] | []]. rewrite <- E.
        apply andb_prop in E. destruct E as [E1 E2]. now rewrite E1, E2.
      * destruct (lon_ok v2 && lat_ok v1); [reflexivity | contradiction].
    + intros ->. apply in_or_app. right. now left.
Qed.

Lemma pair_finder_emits_witness :
  StronglySorted Z.lt (map fst three_floats)
  /\ filter (at_offsets 0 4) (find_coordinate_pairs three_floats 300)
     = [(0, 4, dec 15 (-1), dec 25 (-1)); (0, 4, dec 25 (-1), dec 15 (-1))]
  /\ filter (at_offsets 4 8) (find_coordinate_pairs three_floats 300) = [].
Proof.
  assert (Hs : StronglySorted Z.lt (map fst three_floats)).
  { simpl. repeat constructor. }
  split; [exact Hs|]. split.
  - exact (proj1 (proj1 (pair_finder_emits three_floats 300 Hs)
                        0%nat 1%nat 0 (dec 15 (-1)) 4 (dec 25 (-1))
                        ltac:(lia) eq_refl eq_refl ltac:(lia))).
  - exact (proj1 (proj1 (pair_finder_emits three_floats 300 Hs)
                        1%nat 2%nat 4 (dec 25 (-1)) 8 (dec 2005 (-1))
                        ltac:(lia) eq_refl eq_refl ltac:(lia))).
Defined.

(** C4.  On a list of floats in ascending offset order and for every
    window [W], no emitted pair has [|pos2 - pos1| > W]; the run uses the
    window 300; and when only two numbers of the list are in a valid
    range and they lie more than [W] bytes apart, no pair is emitted and
    nothing is selected. *)
Theorem window_respected (floats : list float_match) (W : Z) :
  StronglySorted Z.le (map fst floats) ->
  (forall c, In c (find_coordinate_pairs floats W) ->
             ~ Z.abs (cp_pos2 c - cp_pos1 c) > W)
  /\ (forall data,
        choose data
        = select (dedup (find_coordinate_pairs (find_floats_in_bytes data) 300)))
  /\ (forall i j p1 v1 p2 v2,
        (i < j)%nat ->
        nth_error floats i = Some (p1, v1) -> nth_error floats j = Some (p2, v2) ->
        (forall k p v, k <> i -> k <> j -> nth_error floats k = Some (p, v) ->
                       lon_ok v || lat_ok v = false) ->
        p2 - p1 > W ->
        find_coordinate_pairs floats W = []
        /\ select (dedup (find_coordinate_pairs floats W)) = None).
Proof.
  intros Hs. split; [|split].
  - intros c Hc.
    destruct (PairFacts.in_find_offsets c W floats Hs Hc) as [H1 H2]. lia.
  - reflexivity.
  - intros i j p1 v1 p2 v2 Hij Hi Hj Hother Hfar.
    assert (E : find_coordinate_pairs floats W = []).
    { destruct (find_coordinate_pairs floats W) as [|c l] eqn:E; [reflexivity|].
      exfalso.
      assert (Hc : In c (find_coordinate_pairs floats W)) by (rewrite E; now left).
      apply PairFacts.in_find in Hc.
      destruct Hc as (a & b & q1 & u1 & q2 & u2 & Hab & Ha & Hb & Hw & Hc).
      apply PairFacts.in_emit in Hc.
      destruct Hc as (_ & _ & _ & _ & V1 & V2).
      assert (Ia : a = i \/ a = j).
      { destruct (Nat.eq_dec a i) as [|Ni]; [now left|].
        destruct (Nat.eq_dec a j) as [|Nj]; [now right|].
        rewrite (Hother a q1 u1 Ni Nj Ha) in V1. discriminate. }
      assert (Ib : b = i \/ b = j).
      { destruct (Nat.eq_dec b i) as [|Ni]; [now left|].
        destruct (Nat.eq_dec b j) as [|Nj]; [now right|].
        rewrite (Hother b q2 u2 Ni Nj Hb) in V2. discriminate. }
      assert (a = i /\ b = j) as [-> ->] by lia.
      rewrite Hi in Ha. rewrite Hj in Hb.
      injection Ha as <- _. injection Hb as <- _. lia. }
    rewrite E. split; reflexivity.
Qed.

Lemma window_respected_witness :
  StronglySorted Z.le (map fst spread_floats)
  /\ find_coordinate_pairs spread_floats 300 = []
  /\ select (dedup (find_coordinate_pairs spread_floats 300)) = None.
Proof.
  assert (Hs : StronglySorted Z.le (map fst spread_floats)).
  { simpl. repeat constructor; discriminate. }
  split; [exact Hs|].
  refine (proj2 (proj2 (window_respected spread_floats 300 Hs))
                0%nat 2%nat 0 (dec 5 (-1)) 400 (dec 25 (-2))
                ltac:(lia) eq_refl eq_refl _ ltac:(lia)).
  intros k p v H0 H2 Hk.
  destruct k as [|[|[|k]]]; try congruence.
  - injection Hk as _ <-. vm_compute. reflexivity.
  - destruct k; discriminate.
Defined.

(** C5.  The deduplication keeps exactly the pairs whose key
    [(round(lat, 7), round(lon, 7))] equals the key of no earlier pair,
    each with its own longitude, latitude and offsets, in their original
    order; so of two pairs with equal keys the later one is dropped. *)
Theorem dedup_keeps_first_occurrences (pairs : list coord_pair) :
  dedup pairs
  = map (fun c => (cp_lon c, cp_lat c, cp_pos1 c, cp_pos2 c))
        (first_occurrences pairs)
  /\ (forall c, pair_key c = (round (cp_lat c) 7, round (cp_lon c) 7))
  /\ (forall i j ci cj,
        (i < j)%nat ->
        nth_error pairs i = Some ci -> nth_error pairs j = Some cj ->
        key_eqb (pair_key cj) (pair_key ci) = true ->
        occurred_before pairs j cj = true).
Proof.
  split; [|split].
  - rewrite DedupFacts.dedup_first. apply map_ext.
    intros [[[p1 p2] lon] lat]. reflexivity.
  - intros c. reflexivity.
  - intros i j ci cj Hij Hi Hj Hk. unfold occurred_before.
    apply existsb_exists. exists ci. split; [|exact Hk].
    rewrite <- (firstn_skipn j pairs) in Hi.
    assert (Hlen : length (firstn j pairs) = j).
    { apply firstn_length_le. apply Nat.lt_le_incl.
      apply nth_error_Some. congruence. }
    rewrite nth_error_app1 in Hi by lia.
    exact (nth_error_In _ _ Hi).
Qed.

(** C6.  For every buffer, the offsets of the scanned floats increase
    strictly, the matches lie one after the other without overlap, every
    matched piece of the buffer is a number of the grammar, and every
    scanned float is the value of a match, at its start. *)
Theorem scanner_offsets_and_grammar (data : list byte) :
  StronglySorted Z.lt (map fst (find_floats_in_bytes data))
  /\ StronglySorted before (finditer FLOAT_RE data)
  /\ (forall m, In m (finditer FLOAT_RE data) ->
                number_grammar (group m)
                /\ exists pre post,
                    data = pre ++ group m ++ post
                    /\ Z.of_nat (length pre) = start m)
  /\ (forall p v, In (p, v) (find_floats_in_bytes data) ->
                  exists m, In m (finditer FLOAT_RE data)
                            /\ start m = p /\ token_value m = Some v).
Proof.
  split; [apply ScanFacts.scanner_increasing|].
  split; [apply ScanFacts.scan_disjoint|]. split.
  - intros m Hm. split; [exact (ScanFacts.match_grammar data m Hm)|].
    apply ReFacts.scan_spec in Hm.
    destruct Hm as (_ & _ & pre & post & E & Hp).
    exists pre, post. split; [exact E | lia].
  - intros p v H. exact (ScanFacts.floats_loop_in _ p v H).
Qed.

(** C7 as stated does not hold: an input path that exists need not be a
    file that can be read.  When it names a directory, [os.path.exists]
    is true, opening it raises, and the process ends with code 1. *)
Lemma exit_code_on_directory_input :
  path_exists dir_fs (same (input dir_args)) = true
  /\ exit_code (ending_of (main same dir_args dir_fs)) = 1
  /\ ~ (forall (expanduser : string -> string) (a : args) (f : fs),
          path_exists f (expanduser (input a)) = true ->
          exit_code (ending_of (main expanduser a f)) = 0).
Proof.
  split; [reflexivity|]. split; [reflexivity|].
  intros H. specialize (H same dir_args dir_fs eq_refl).
  vm_compute in H. discriminate.
Qed.

(** C7, amended.  When the input path does not exist the run ends with
    code 2, which differs from 0 and from the code of an escaped
    exception, and leaves every file as it was; when the input can be
    read and the output can be opened for writing, the run ends with
    code 0, whether or not a coordinate is found. *)
Theorem exit_codes (expanduser : string -> string) (a : args) (f : fs) :
  (path_exists f (expanduser (input a)) = false ->
   exit_code (ending_of (main expanduser a f)) = 2
   /\ 2 <> 0 /\ (forall e, exit_code (Raised e) <> 2)
   /\ files (main expanduser a f) = f)
  /\ (forall data f1,
         read_bytes f (expanduser (input a)) = inr data ->
         open_w f (expanduser (output a)) = inr f1 ->
         exit_code (ending_of (main expanduser a f)) = 0).
Proof.
  split.
  - intros H. unfold main. rewrite H. simpl.
    repeat split; intros; lia.
  - intros data f1 Hr Hw. rewrite (RunFacts.main_writes _ _ _ _ _ Hr Hw).
    destruct (choose data) as [[[[lon lat] p1] p2]|]; reflexivity.
Qed.

Lemma exit_codes_witness :
  (path_exists dir_fs (same (input clip_args)) = false
   /\ exit_code (ending_of (main same clip_args dir_fs)) = 2
   /\ files (main same clip_args dir_fs) = dir_fs)
  /\ (read_bytes clip_fs (same (input clip_args))
      = inr (of_string "...xx-122.0591000xx37.9361000xx")
      /\ exit_code (ending_of (main same clip_args clip_fs)) = 0).
Proof.
  split.
  - assert (H : path_exists dir_fs (same (input clip_args)) = false) by reflexivity.
    split; [exact H|].
    destruct (proj1 (exit_codes same clip_args dir_fs) H) as (H1 & _ & _ & H2).
    split; assumption.
  - assert (H : read_bytes clip_fs (same (input clip_args))
                = inr (of_string "...xx-122.0591000xx37.9361000xx")) by reflexivity.
    split; [exact H|].
    exact (proj2 (exit_codes same clip_args clip_fs) _ _ H eq_refl).
Defined.

(** C9.  In the scanner the failure branch is never taken: every match
    of the pattern holds ASCII bytes only, decodes, and parses as a
    float, so the scanner yields one float per match, at its start. *)
Theorem scanner_drops_no_match (data : list byte) :
  (forall m, In m (finditer FLOAT_RE data) ->
             forallb is_ascii (group m) = true
             /\ decode_ascii (group m) = Some (group m)
             /\ exists v, of_str (group m) = Some v /\ token_value m = Some v)
  /\ map fst (find_floats_in_bytes data) = map start (finditer FLOAT_RE data)
  /\ length (find_floats_in_bytes data) = length (finditer FLOAT_RE data).
Proof.
  split; [|split].
  - intros m Hm. split; [|split].
    + apply ParseFacts.grammar_ascii. exact (ScanFacts.match_grammar data m Hm).
    + exact (ScanFacts.match_decodes data m Hm).
    + exact (ScanFacts.match_value data m Hm).
  - apply ScanFacts.scanner_offsets.
  - transitivity (length (map fst (find_floats_in_bytes data)));
      [symmetry; apply length_map|].
    rewrite ScanFacts.scanner_offsets. apply length_map.
Qed.

(** C10.  On a list of floats with strictly increasing offsets every
    emitted pair has [pos1 < pos2], so the sort key of a unique candidate
    is its [pos1]; the keys never decrease along the unique list, sorting
    it changes nothing, and the fallback selection is its first element. *)
Theorem fallback_is_head (floats : list float_match) (W : Z) :
  StronglySorted Z.lt (map fst floats) ->
  (forall c, In c (find_coordinate_pairs floats W) -> cp_pos1 c < cp_pos2 c)
  /\ (forall u, In u (dedup (find_coordinate_pairs floats W)) ->
                cand_pos1 u < cand_pos2 u /\ sort_key u = cand_pos1 u)
  /\ StronglySorted Z.le
       (map sort_key (dedup (find_coordinate_pairs floats W)))
  /\ sorted sort_key (dedup (find_coordinate_pairs floats W))
     = dedup (find_coordinate_pairs floats W)
  /\ fallback (dedup (find_coordinate_pairs floats W))
     = hd_error (dedup (find_coordinate_pairs floats W)).
Proof.
  intros Hs.
  assert (H1 : forall c, In c (find_coordinate_pairs floats W) ->
                         cp_pos1 c < cp_pos2 c).
  { intros c Hc. exact (proj1 (PairFacts.in_find_offsets c W floats Hs Hc)). }
  assert (H2 : forall u, In u (dedup (find_coordinate_pairs floats W)) ->
                         cand_pos1 u < cand_pos2 u /\ sort_key u = cand_pos1 u).
  { intros u Hu. apply DedupFacts.in_dedup in Hu. destruct Hu as (c & Hc & ->).
    unfold sort_key.
    rewrite DedupFacts.to_candidate_pos1, DedupFacts.to_candidate_pos2.
    specialize (H1 c Hc). lia. }
  assert (H3 : StronglySorted Z.le
                 (map sort_key (dedup (find_coordinate_pairs floats W)))).
  { rewrite (map_ext_in sort_key cand_pos1) by (intros u Hu; apply H2, Hu).
    apply DedupFacts.dedup_loop_sorted. now apply PairFacts.find_sorted. }
  assert (H4 : sorted sort_key (dedup (find_coordinate_pairs floats W))
               = dedup (find_coordinate_pairs floats W)).
  { now apply SelectFacts.sorted_id. }
  repeat split; try assumption; try (apply H2; assumption).
  unfold fallback. rewrite H4.
  destruct (dedup (find_coordinate_pairs floats W)); reflexivity.
Qed.

Lemma fallback_is_head_witness :
  StronglySorted Z.lt (map fst three_floats)
  /\ fallback (dedup (find_coordinate_pairs three_floats 300))
     = hd_error (dedup (find_coordinate_pairs three_floats 300)).
Proof.
  assert (Hs : StronglySorted Z.lt (map fst three_floats)).
  { simpl. repeat constructor. }
  split; [exact Hs|].
  exact (proj2 (proj2 (proj2 (proj2 (fallback_is_head three_floats 300 Hs))))).
Defined.

(** * Worked runs *)

(** A few binary64 values of decimal literals, as mantissa and exponent. *)
Example literal_values :
  of_decimal false 1 (-1) = S754_finite false 7205759403792794 (-56)
  /\ f180 = S754_finite false 6333186975989760 (-45)
  /\ f90 = S754_finite false 6333186975989760 (-46)
  /\ target_lat = S754_finite false 5339031431996559 (-47)
  /\ target_lon = S754_finite true 8589145582455908 (-46)
  /\ tol = S754_finite false 7378697629483821 (-66).
Proof. repeat split; vm_compute; reflexivity. Qed.

(** With more than three integer digits the first alternative of the
    pattern fails and the second one matches the whole number. *)
Example token_1234 :
  finditer FLOAT_RE (of_string "1234.5")
  = [ {| start := 0; group := of_string "1234.5" |} ].
Proof. vm_compute. reflexivity. Qed.

(** A sign that is not followed by a digit is skipped. *)
Example token_after_sign :
  map start (finditer FLOAT_RE (of_string "+-1.5e3 7. .5 12.3.4")) = [1; 14].
Proof. vm_compute. reflexivity. Qed.

(** Rounding and formatting to seven places keep the sign of a value
    that rounds to zero. *)
Example tiny_negative :
  round (of_decimal true 1 (-8)) 7 = S754_zero true
  /\ format_7f (of_decimal true 1 (-8)) = "-0.0000000"%string
  /\ format_7f (of_decimal false 12345612345675 (-8)) = "123456.1234568"%string.
Proof. repeat split; vm_compute; reflexivity. Qed.

(** Both numbers within the window and within tolerance of the target. *)
Example scenario_a :
  let o := main same clip_args
                (one_file (of_string "...xx-122.0591000xx37.9361000xx")) in
  text_at o "out.txt"
  = Some ("longitude,latitude" ++ nl ++ "-122.0591000,37.9361000" ++ nl)%string
  /\ exit_code (ending_of o) = 0.
Proof. vm_compute. split; reflexivity. Qed.

(** The empty buffer. *)
Example scenario_b :
  let o := main same clip_args (one_file []) in
  text_at o "out.txt"
  = Some ("No longitude/latitude found in clip.mov" ++ nl)%string
  /\ exit_code (ending_of o) = 0.
Proof. vm_compute. split; reflexivity. Qed.

(** The input path does not exist. *)
Example scenario_c :
  let o := main same dir_args (one_file []) in
  files o "out.txt"%string = None /\ exit_code (ending_of o) = 2
  /\ stdout o = ["Input file not found: clips"%string].
Proof. vm_compute. repeat split; reflexivity. Qed.

(** Two numbers in range, 403 bytes apart. *)
Example scenario_d :
  let data := of_string "0.5" ++ repeat x78 400 ++ of_string "0.25" in
  map fst (find_floats_in_bytes data) = [0; 403]
  /\ find_coordinate_pairs (find_floats_in_bytes data) window = []
  /\ text_at (main same clip_args (one_file data)) "out.txt"
     = Some ("No longitude/latitude found in clip.mov" ++ nl)%string.
Proof. vm_compute. repeat split; reflexivity. Qed.

(** The first candidate within tolerance wins over a later one that is
    exactly at the target. *)
Example first_near_wins :
  text_at (main same clip_args
                (one_file (of_string "-122.05915 37.93615 pad -122.0591 37.9361")))
          "out.txt"
  = Some ("longitude,latitude" ++ nl ++ "-122.0591500,37.9361500" ++ nl)%string.
Proof. vm_compute. reflexivity. Qed.

(** Away from the target, the earliest pair is written. *)
Example earliest_wins :
  text_at (main same clip_args (one_file (of_string "1.5 2.5 99.5"))) "out.txt"
  = Some ("longitude,latitude" ++ nl ++ "1.5000000,2.5000000" ++ nl)%string.
Proof. vm_compute. reflexivity. Qed.

(** Every run that reads its input and opens its output leaves one of the
    two texts in the output file. *)
Theorem run_output_shapes (expanduser : string -> string) (a : args) (f : fs)
        (data : list byte) (f1 : fs) :
  read_bytes f (expanduser (input a)) = inr data ->
  open_w f (expanduser (output a)) = inr f1 ->
  match choose data with
  | Some c =>
      files (main expanduser a f) (expanduser (output a))
      = Some (File (list_byte_of_string
                      ("longitude,latitude" ++ nl
                       ++ format_7f (cand_lon c) ++ "," ++ format_7f (cand_lat c)
                       ++ nl)))
      /\ seven_places (format_7f (cand_lon c))
      /\ seven_places (format_7f (cand_lat c))
  | None =>
      files (main expanduser a f) (expanduser (output a))
      = Some (File (list_byte_of_string
                      ("No longitude/latitude found in "
                       ++ expanduser (input a) ++ nl)))
  end.
Proof.
  intros Hr Hw. rewrite (RunFacts.main_writes _ _ _ _ _ Hr Hw).
  pose proof (RunFacts.open_w_empty _ _ _ Hw) as Hempty.
  destruct (choose data) as [c|] eqn:E.
  - destruct (RunFacts.choose_range data c E) as [Hlon Hlat].
    split; [now apply RunFacts.write_result_some|]. split.
    + apply FormatFacts.format_7f_finite. now apply FloatFacts.lon_ok_finite.
    + apply FormatFacts.format_7f_finite. now apply FloatFacts.lat_ok_finite.
  - now apply RunFacts.write_result_none.
Qed.

(** * Further properties *)

(** ** The pair finder: windows and counts *)

Module WindowFacts.

Import PairFacts.

(** With a larger window the inner loop runs at least as far. *)
Lemma inner_loop_prefix p1 v1 W W' rest :
  W <= W' ->
  exists more,
    inner_loop p1 v1 rest W' [] = inner_loop p1 v1 rest W [] ++ more.
Proof.
  intros Hle. induction rest as [|[p2 v2] rest [more IH]].
  - exists []. reflexivity.
  - rewrite !inner_loop_cons.
    destruct (Z.gtb_spec (p2 - p1) W) as [Hgt|Hin].
    + eexists. reflexivity.
    + destruct (Z.gtb_spec (p2 - p1) W') as [Hgt'|Hin']; [lia|].
      exists more. rewrite IH, app_assoc. reflexivity.
Qed.

Lemma inner_loop_length p1 v1 W rest :
  (length (inner_loop p1 v1 rest W []) <= 2 * length rest)%nat.
Proof.
  induction rest as [|[p2 v2] rest IH]; [simpl; lia|].
  rewrite inner_loop_cons. destruct (p2 - p1 >? W); [simpl; lia|].
  rewrite length_app, emit_nil, length_app. simpl length.
  destruct (lon_ok v1 && lat_ok v2), (lon_ok v2 && lat_ok v1); simpl; lia.
Qed.

End WindowFacts.

(** X1.  Widening the window loses no pair: every pair emitted with a
    window [W] is emitted with any window [W' >= W], on every list of
    floats, ordered or not. *)
Theorem wider_window_keeps_pairs (floats : list float_match) (W W' : Z) :
  W <= W' ->
  incl (find_coordinate_pairs floats W) (find_coordinate_pairs floats W').
Proof.
  intros Hle. induction floats as [|[p1 v1] rest IH]; [intros c []|].
  rewrite !PairFacts.find_cons. intros c Hc.
  apply in_app_or in Hc. apply in_or_app. destruct Hc as [Hc | Hc].
  - left. destruct (WindowFacts.inner_loop_prefix p1 v1 W W' rest Hle) as [more ->].
    apply in_or_app. now left.
  - right. now apply IH.
Qed.

Lemma wider_window_keeps_pairs_witness :
  default_max_byte_distance <= window
  /\ incl (find_coordinate_pairs three_floats default_max_byte_distance)
          (find_coordinate_pairs three_floats window).
Proof.
  assert (H : default_max_byte_distance <= window) by (vm_compute; discriminate).
  split; [exact H|].
  exact (wider_window_keeps_pairs three_floats _ _ H).
Defined.

(** X2.  At most two pairs are emitted for each pair of indices, so a
    list of [n] floats gives at most [n * (n - 1)] pairs, and a list of
    fewer than two floats gives none. *)
Theorem pair_count_bound (floats : list float_match) (W : Z) :
  (length (find_coordinate_pairs floats W)
   <= length floats * (length floats - 1))%nat
  /\ ((length floats <= 1)%nat -> find_coordinate_pairs floats W = []).
Proof.
  assert (B : (length (find_coordinate_pairs floats W)
               <= length floats * (length floats - 1))%nat).
  { induction floats as [|[p1 v1] rest IH]; [simpl; lia|].
    rewrite PairFacts.find_cons, length_app.
    pose proof (WindowFacts.inner_loop_length p1 v1 W rest) as Hi.
    simpl length. nia. }
  split; [exact B|]. intros Hn.
  destruct (find_coordinate_pairs floats W) as [|c l]; [reflexivity|].
  simpl in B. nia.
Qed.

(** ** Deduplication: distinct keys, nothing lost *)

Module KeyFacts.

Import DedupFacts.

Lemma cand_key_to_candidate c : cand_key (to_candidate c) = pair_key c.
Proof. destruct c as [[[p1 p2] lon] lat]. reflexivity. Qed.

(** What the loop keeps has a key that was not in [seen]. *)
Lemma kept_not_seen rest :
  forall seen u,
    In u (dedup_loop rest [] seen) -> key_in (cand_key u) seen = false.
Proof.
  induction rest as [|c rest IH]; intros seen u H; [contradiction|].
  rewrite dedup_loop_cons in H.
  destruct (key_in (pair_key c) seen) eqn:E; [now apply IH|].
  destruct H as [<- | H]; [now rewrite cand_key_to_candidate|].
  apply IH in H. unfold key_in in H. simpl in H.
  apply orb_false_elim in H. exact (proj2 H).
Qed.

Lemma kept_distinct rest :
  forall seen,
    ForallOrdPairs (fun u1 u2 => key_eqb (cand_key u2) (cand_key u1) = false)
                   (dedup_loop rest [] seen).
Proof.
  induction rest as [|c rest IH]; intros seen; [constructor|].
  rewrite dedup_loop_cons.
  destruct (key_in (pair_key c) seen); [apply IH|].
  constructor; [|apply IH].
  apply Forall_forall. intros u Hu. apply kept_not_seen in Hu.
  unfold key_in in Hu. simpl in Hu. apply orb_false_elim in Hu.
  rewrite cand_key_to_candidate. exact (proj1 Hu).
Qed.

(** A pair read by the loop is kept, or has the key of a kept pair, or
    has a key of [seen]. *)
Lemma read_is_covered rest :
  forall seen c,
    In c rest ->
    (exists u, In u (dedup_loop rest [] seen)
               /\ (u = to_candidate c
                   \/ key_eqb (pair_key c) (cand_key u) = true))
    \/ key_in (pair_key c) seen = true.
Proof.
  induction rest as [|d rest IH]; intros seen c H; [contradiction|].
  rewrite dedup_loop_cons. destruct H as [-> | H].
  - destruct (key_in (pair_key c) seen) eqn:E; [now right|].
    left. exists (to_candidate c). split; [now left | now left].
  - destruct (key_in (pair_key d) seen) eqn:E; [now apply IH|].
    destruct (IH (pair_key d :: seen) c H) as [(u & Hu & Hc) | Hs].
    + left. exists u. split; [now right | assumption].
    + unfold key_in in Hs. simpl in Hs. apply orb_prop in Hs.
      destruct Hs as [Hs | Hs]; [|now right].
      left. exists (to_candidate d). split; [now left|].
      right. now rewrite cand_key_to_candidate.
Qed.

End KeyFacts.

(** X3.  No two unique candidates have equal keys: a later candidate
    of the unique list never has the rounded latitude and longitude of an
    earlier one. *)
Theorem unique_keys_distinct (pairs : list coord_pair) :
  ForallOrdPairs (fun u1 u2 => key_eqb (cand_key u2) (cand_key u1) = false)
                 (dedup pairs).
Proof. apply KeyFacts.kept_distinct. Qed.

(** X4.  Deduplication loses no key: every pair is itself among the
    unique candidates, or a unique candidate has its key. *)
Theorem dedup_covers_every_pair (pairs : list coord_pair) :
  Forall (fun c => exists u,
              In u (dedup pairs)
              /\ (u = (cp_lon c, cp_lat c, cp_pos1 c, cp_pos2 c)
                  \/ key_eqb (pair_key c) (cand_key u) = true))
         pairs.
Proof.
  apply Forall_forall. intros c Hc.
  destruct (KeyFacts.read_is_covered pairs [] c Hc) as [(u & Hu & H) | H];
    [|discriminate].
  exists u. split; [exact Hu|].
  destruct c as [[[p1 p2] lon] lat]. exact H.
Qed.

(** ** Selection: something is chosen whenever there is a candidate *)

(** X5.  The selector returns nothing exactly when the list is empty,
    and what it returns is an element of the list. *)
Theorem select_none_iff_empty (unique : list candidate) :
  (select unique = None <-> unique = [])
  /\ (forall c, select unique = Some c -> In c unique).
Proof.
  split; [|intros c; apply SelectFacts.in_select].
  split.
  - unfold select. destruct (target_loop unique); [discriminate|].
    destruct unique as [|u l]; [reflexivity|]. unfold fallback.
    destruct (SelectFacts.hd_sorted_exists sort_key u l) as [c ->]. discriminate.
  - intros ->. reflexivity.
Qed.

Module PipelineFacts.

Lemma dedup_nil_iff pairs : dedup pairs = [] <-> pairs = [].
Proof.
  split; [|intros ->; reflexivity].
  destruct pairs as [|c rest]; [reflexivity|].
  unfold dedup. rewrite DedupFacts.dedup_loop_cons. simpl. discriminate.
Qed.

Lemma dedup_hd pairs :
  hd_error (dedup pairs) = option_map to_candidate (hd_error pairs).
Proof.
  destruct pairs as [|c rest]; [reflexivity|].
  unfold dedup. rewrite DedupFacts.dedup_loop_cons. reflexivity.
Qed.

(** On floats in strictly increasing offset order the unique list is
    already in the order of its sort keys. *)
Lemma unique_in_key_order floats W :
  StronglySorted Z.lt (map fst floats) ->
  sorted sort_key (dedup (find_coordinate_pairs floats W))
  = dedup (find_coordinate_pairs floats W).
Proof.
  intros Hs. apply SelectFacts.sorted_id.
  rewrite (map_ext_in sort_key cand_pos1).
  - apply DedupFacts.dedup_loop_sorted. now apply PairFacts.find_sorted.
  - intros u Hu. apply DedupFacts.in_dedup in Hu. destruct Hu as (c & Hc & ->).
    unfold sort_key.
    rewrite DedupFacts.to_candidate_pos1, DedupFacts.to_candidate_pos2.
    pose proof (proj1 (PairFacts.in_find_offsets c W floats Hs Hc)). lia.
Qed.

End PipelineFacts.

(** X6.  A run finds no coordinate exactly when the pair finder emits
    no pair for the scanned floats. *)
Theorem not_found_iff_no_pair (data : list byte) :
  choose data = None
  <-> find_coordinate_pairs (find_floats_in_bytes data) window = [].
Proof.
  unfold choose. split.
  - intros H. apply PipelineFacts.dedup_nil_iff.
    destruct (dedup _) as [|u l] eqn:E; [reflexivity|]. exfalso.
    unfold select in H. destruct (target_loop (u :: l)); [discriminate|].
    unfold fallback in H.
    destruct (SelectFacts.hd_sorted_exists sort_key u l) as [c Hc].
    rewrite Hc in H. discriminate.
  - intros ->. reflexivity.
Qed.

(** X7.  When no unique candidate is within tolerance of the target, a
    run selects the first pair that the pair finder emitted. *)
Theorem fallback_is_first_emitted (data : list byte) :
  target_loop
    (dedup (find_coordinate_pairs (find_floats_in_bytes data) window)) = None ->
  choose data
  = option_map (fun c => (cp_lon c, cp_lat c, cp_pos1 c, cp_pos2 c))
               (hd_error (find_coordinate_pairs (find_floats_in_bytes data) window)).
Proof.
  intros Ht. unfold choose, select. rewrite Ht.
  transitivity (hd_error (dedup (find_coordinate_pairs
                                   (find_floats_in_bytes data) window))).
  - unfold fallback.
    rewrite (PipelineFacts.unique_in_key_order _ _ (ScanFacts.scanner_increasing data)).
    destruct (dedup _); reflexivity.
  - rewrite PipelineFacts.dedup_hd.
    destruct (hd_error _) as [[[[p1 p2] lon] lat]|]; reflexivity.
Qed.

Lemma fallback_is_first_emitted_witness :
  target_loop
    (dedup (find_coordinate_pairs
              (find_floats_in_bytes (of_string "1.5 2.5 99.5")) window)) = None
  /\ choose (of_string "1.5 2.5 99.5")
     = option_map (fun c => (cp_lon c, cp_lat c, cp_pos1 c, cp_pos2 c))
                  (hd_error (find_coordinate_pairs
                               (find_floats_in_bytes (of_string "1.5 2.5 99.5"))
                               window)).
Proof.
  assert (H : target_loop
                (dedup (find_coordinate_pairs
                          (find_floats_in_bytes (of_string "1.5 2.5 99.5"))
                          window)) = None) by (vm_compute; reflexivity).
  split; [exact H|].
  exact (fallback_is_first_emitted (of_string "1.5 2.5 99.5") H).
Defined.

(** ** Runs: which files change *)

Module FrameFacts.

Lemma update_other f p n q : q <> p -> update f p n q = f q.
Proof.
  intros H. unfold update. apply String.eqb_neq in H. now rewrite H.
Qed.

Lemma open_w_other f p f1 q : open_w f p = inr f1 -> q <> p -> f1 q = f q.
Proof.
  unfold open_w. intros H Hq. destruct (f p) as [[data|]|].
  - injection H as <-. now apply update_other.
  - discriminate.
  - destruct (parent_ok f p); [|discriminate].
    injection H as <-. now apply update_other.
Qed.

Lemma write_other f p text q : q <> p -> write f p text q = f q.
Proof.
  intros Hq. unfold write. destruct (f p) as [[old|]|]; try reflexivity.
  now apply update_other.
Qed.

Lemma write_result_other f1 out inp chosen q :
  q <> out -> files (write_result f1 out inp chosen) q = f1 q.
Proof.
  intros Hq. destruct chosen as [[[[lon lat] p1] p2]|]; simpl.
  - now rewrite !write_other.
  - now apply write_other.
Qed.

(** The cases of a run. *)
Lemma main_cases expanduser a f :
  (main expanduser a f
   = {| ending_of := Returned 2; files := f;
        stdout := [("Input file not found: " ++ expanduser (input a))%string] |})
  \/ (exists e, main expanduser a f
                = {| ending_of := Raised e; files := f; stdout := [] |})
  \/ (exists data f1,
         read_bytes f (expanduser (input a)) = inr data
         /\ open_w f (expanduser (output a)) = inr f1
         /\ main expanduser a f
            = write_result f1 (expanduser (output a)) (expanduser (input a))
                           (choose data)).
Proof.
  unfold main. destruct (path_exists f (expanduser (input a))); simpl; [|now left].
  right. destruct (read_bytes f (expanduser (input a))) as [e|data]; [left; eauto|].
  destruct (open_w f (expanduser (output a))) as [e|f1]; [left; eauto|].
  right. eauto.
Qed.

Lemma write_result_code f1 out inp chosen :
  exit_code (ending_of (write_result f1 out inp chosen)) = 0.
Proof. destruct chosen as [[[[lon lat] p1] p2]|]; reflexivity. Qed.


End FrameFacts.

(** X8.  A run touches no path but its output path: every other path
    names after the run what it named before. *)
Theorem run_changes_only_output (expanduser : string -> string) (a : args)
        (f : fs) (p : string) :
  p <> expanduser (output a) ->
  files (main expanduser a f) p = f p.
Proof.
  intros Hp.
  destruct (FrameFacts.main_cases expanduser a f)
    as [-> | [[e ->] | (data & f1 & _ & Hw & ->)]]; try reflexivity.
  rewrite FrameFacts.write_result_other by exact Hp.
  exact (FrameFacts.open_w_other _ _ _ _ Hw Hp).
Qed.

Lemma run_changes_only_output_witness :
  "clip.mov"%string <> same (output clip_args)
  /\ files (main same clip_args clip_fs) "clip.mov"%string
     = clip_fs "clip.mov"%string.
Proof.
  assert (H : "clip.mov"%string <> same (output clip_args)) by discriminate.
  split; [exact H|].
  exact (run_changes_only_output same clip_args clip_fs "clip.mov"%string H).
Defined.

(** X9.  A run that does not end with code 0 changes no file at all:
    this covers a missing input, an input that cannot be read and an
    output that cannot be opened. *)
Theorem failed_run_changes_nothing (expanduser : string -> string) (a : args)
        (f : fs) :
  exit_code (ending_of (main expanduser a f)) <> 0 ->
  files (main expanduser a f) = f.
Proof.
  intros Hc.
  destruct (FrameFacts.main_cases expanduser a f)
    as [-> | [[e ->] | (data & f1 & _ & _ & E)]]; try reflexivity.
  exfalso. apply Hc. rewrite E. apply FrameFacts.write_result_code.
Qed.

Lemma failed_run_changes_nothing_witness :
  exit_code (ending_of (main same dir_args dir_fs)) <> 0
  /\ files (main same dir_args dir_fs) = dir_fs.
Proof.
  assert (H : exit_code (ending_of (main same dir_args dir_fs)) <> 0)
    by (vm_compute; discriminate).
  split; [exact H|].
  exact (failed_run_changes_nothing same dir_args dir_fs H).
Defined.



(** ** The pattern: what the matcher finds *)

Module MatchFacts.

Import ReFacts GrammarFacts.

Lemma or_else_none_r {A} (x : option A) : or_else x None = x.
Proof. destruct x; reflexivity. Qed.

Lemma or_else_same {A} (x : option A) : or_else x x = x.
Proof. destruct x; reflexivity. Qed.

Lemma or_else_left {A} (x y : option A) : x <> None -> or_else x y <> None.
Proof. destruct x; simpl; congruence. Qed.

Lemma or_else_right {A} (x y : option A) : y <> None -> or_else x y <> None.
Proof. destruct x; simpl; congruence. Qed.

(** *** Continuations that agree *)

Lemma rep_greedy_ext p k1 k2 :
  (forall s, k1 s = k2 s) ->
  forall s lo hi, rep_greedy p lo hi s k1 = rep_greedy p lo hi s k2.
Proof.
  intros Hk. induction s as [|c s IH]; intros lo hi; simpl.
  - destruct lo; auto.
  - rewrite IH, Hk. reflexivity.
Qed.

Lemma bt_ext r :
  forall k1 k2, (forall s, k1 s = k2 s) -> forall s, bt r s k1 = bt r s k2.
Proof.
  induction r as [p | r1 IH1 r2 IH2 | r1 IH1 r2 IH2 | r1 IH1 | p lo hi];
    intros k1 k2 Hk s; simpl.
  - destruct s as [|c s]; [reflexivity|]. destruct (p c); auto.
  - apply IH1. intros s1. now apply IH2.
  - now rewrite (IH1 k1 k2 Hk), (IH2 k1 k2 Hk).
  - now rewrite (IH1 k1 k2 Hk), Hk.
  - now apply rep_greedy_ext.
Qed.

(** *** A repetition before something that cannot start in the class *)

(** When what follows fails on every input that starts in the class,
    giving back bytes never helps: the repetition takes the whole run, or
    fails. *)
Lemma rep_greedy_blocked p k :
  (forall c s, p c = true -> k (c :: s) = None) ->
  forall s lo hi,
    rep_greedy p lo hi s k
    = if (lo <=? length (fst (span p s)))%nat && within hi (length (fst (span p s)))
      then k (snd (span p s)) else None.
Proof.
  intros Hk. induction s as [|c s IH]; intros lo hi.
  - simpl. destruct lo, hi; reflexivity.
  - cbn [rep_greedy span]. destruct (p c) eqn:Ep.
    + assert (Hstop : match lo with O => k (c :: s) | S _ => None end = None).
      { destruct lo; [now apply Hk | reflexivity]. }
      rewrite Hstop. destruct (span p s) as [run rest] eqn:Es.
      cbn [fst snd length]. destruct (may_take hi) eqn:Em; cbn [andb].
      * rewrite or_else_none_r, IH. cbn [fst snd].
        assert (E1 : (Nat.pred lo <=? length run)%nat = (lo <=? S (length run))%nat).
        { destruct lo; reflexivity. }
        assert (E2 : within (option_map Nat.pred hi) (length run)
                     = within hi (S (length run))).
        { destruct hi as [[|h]|]; try reflexivity. discriminate. }
        now rewrite E1, E2.
      * destruct hi as [[|h]|]; try discriminate. simpl.
        now rewrite andb_false_r.
    + simpl. destruct lo; [|reflexivity]. destruct hi; reflexivity.
Qed.

(** When what follows never fails, the repetition takes the whole run. *)
Lemma rep_greedy_total p k :
  (forall s, k s <> None) ->
  forall s lo,
    rep_greedy p lo None s k
    = if (lo <=? length (fst (span p s)))%nat then k (snd (span p s)) else None.
Proof.
  intros Hk. induction s as [|c s IH]; intros lo.
  - simpl. destruct lo; reflexivity.
  - cbn [rep_greedy span]. destruct (p c) eqn:Ep.
    + cbn [may_take andb option_map]. rewrite IH.
      destruct (span p s) as [run rest] eqn:Es. cbn [fst snd length].
      destruct lo as [|lo]; cbn [Nat.pred].
      * simpl. destruct (k rest) eqn:Er; [reflexivity|]. now destruct (Hk rest).
      * change (S lo <=? S (length run))%nat with (lo <=? length run)%nat.
        destruct (lo <=? length run)%nat; [|reflexivity].
        destruct (k rest) eqn:Er; [reflexivity|]. now destruct (Hk rest).
    + simpl. destruct lo; reflexivity.
Qed.

Lemma span_rest p s :
  match snd (span p s) with
  | c :: _ => p c = false
  | [] => True
  end.
Proof.
  induction s as [|c s IH]; simpl; [exact I|].
  destruct (p c) eqn:E; [|exact E].
  destruct (span p s). exact IH.
Qed.

End MatchFacts.

Module AltFacts.

Import ReFacts GrammarFacts MatchFacts.

(** What follows the integer digits cannot start with a digit. *)
Lemma dot_blocked k c s :
  is_digit c = true ->
  bt (Seq (Cls is_dot) (Rep is_digit 1 None)) (c :: s) k = None.
Proof.
  intros Hc. simpl. destruct (is_dot c) eqn:E; [|reflexivity].
  apply dot_stops in E. destruct E as [E _]. congruence.
Qed.

(** The number part takes the whole run of integer digits. *)
Lemma bt_digits_dot_digits hi s k :
  bt (digits_dot_digits hi) s k
  = if (1 <=? length (fst (span is_digit s)))%nat
       && within hi (length (fst (span is_digit s)))
    then bt (Seq (Cls is_dot) (Rep is_digit 1 None)) (snd (span is_digit s)) k
    else None.
Proof.
  change (bt (digits_dot_digits hi) s k)
    with (rep_greedy is_digit 1 hi s
            (fun s1 => bt (Seq (Cls is_dot) (Rep is_digit 1 None)) s1 k)).
  apply (rep_greedy_blocked is_digit
           (fun s1 => bt (Seq (Cls is_dot) (Rep is_digit 1 None)) s1 k)).
  intros c s' Hc. now apply dot_blocked.
Qed.

(** Whenever the bounded alternative matches, the unbounded one gives
    the same result; so either order of the two is the unbounded one. *)
Lemma alt_is_unbounded s k :
  bt (Alt (digits_dot_digits (Some 3%nat)) (digits_dot_digits None)) s k
  = bt (digits_dot_digits None) s k
  /\ bt (Alt (digits_dot_digits None) (digits_dot_digits (Some 3%nat))) s k
     = bt (digits_dot_digits None) s k.
Proof.
  cbn [bt]. fold (digits_dot_digits (Some 3%nat)). fold (digits_dot_digits None).
  change (rep_greedy is_digit 1 (Some 3%nat) s
            (fun s1 => bt (Cls is_dot) s1 (fun s2 => rep_greedy is_digit 1 None s2 k)))
    with (bt (digits_dot_digits (Some 3%nat)) s k).
  change (rep_greedy is_digit 1 None s
            (fun s1 => bt (Cls is_dot) s1 (fun s2 => rep_greedy is_digit 1 None s2 k)))
    with (bt (digits_dot_digits None) s k).
  rewrite !bt_digits_dot_digits. cbn [within].
  destruct (1 <=? length (fst (span is_digit s)))%nat; cbn [andb];
    [|split; reflexivity].
  destruct (length (fst (span is_digit s)) <=? 3)%nat; cbn [andb].
  - split; apply or_else_same.
  - split; [reflexivity | apply or_else_none_r].
Qed.

Lemma float_re_with_ext n1 n2 :
  (forall s k, bt n1 s k = bt n2 s k) ->
  forall s k, bt (float_re_with n1) s k = bt (float_re_with n2) s k.
Proof.
  intros H s k. unfold float_re_with. cbn [bt].
  apply (bt_ext (Opt (Cls is_sign))). intros s1. apply H.
Qed.

Lemma match_at_ext r1 r2 :
  (forall s k, bt r1 s k = bt r2 s k) ->
  forall s, match_at r1 s = match_at r2 s.
Proof. intros H s. unfold match_at. now rewrite H. Qed.

Lemma scan_ext r1 r2 :
  (forall s, match_at r1 s = match_at r2 s) ->
  forall s pos skip, scan r1 pos skip s = scan r2 pos skip s.
Proof.
  intros H. induction s as [|c s IH]; intros pos skip.
  - destruct skip; simpl; [|reflexivity]. now rewrite H.
  - destruct skip as [|n]; simpl; [|apply IH].
    rewrite H. destruct (match_at r2 (c :: s)); now rewrite IH.
Qed.

(** *** The end of a match *)

Lemma exponent_total s : bt exponent_re s whole <> None.
Proof. unfold exponent_re. cbn [bt]. now apply or_else_right. Qed.

Lemma digits_end s rest :
  rep_greedy is_digit 1 None s whole = Some rest -> no_digit_next rest.
Proof.
  rewrite (rep_greedy_total is_digit whole) by discriminate.
  destruct (1 <=? _)%nat; [|discriminate]. intros [= <-].
  exact (span_rest is_digit s).
Qed.

Lemma exponent_end s rest :
  no_digit_next s -> bt exponent_re s whole = Some rest -> no_digit_next rest.
Proof.
  intros Hs H. unfold exponent_re in H. cbn [bt] in H.
  apply or_else_some in H. destruct H as [H | [_ [= <-]]]; [|exact Hs].
  destruct s as [|c s]; [discriminate|].
  destruct (is_exp c); [|discriminate].
  apply or_else_some in H. destruct H as [H | [_ H]].
  - destruct s as [|d s]; [discriminate|].
    destruct (is_sign d); [|discriminate]. now apply digits_end in H.
  - now apply digits_end in H.
Qed.

(** After a match of [FLOAT_RE] the input does not go on with a digit. *)
Lemma float_end s rest :
  bt FLOAT_RE s whole = Some rest -> no_digit_next rest.
Proof.
  intros H.
  change (bt FLOAT_RE s whole)
    with (bt (Opt (Cls is_sign)) s
             (fun s1 => bt (Alt (digits_dot_digits (Some 3%nat))
                                (digits_dot_digits None)) s1
                           (fun s2 => bt exponent_re s2 whole))) in H.
  apply bt_sound in H. destruct H as (_ & s1 & _ & _ & H).
  rewrite (proj1 (alt_is_unbounded s1 _)), bt_digits_dot_digits in H.
  destruct (_ && _); [|discriminate].
  change (bt (Seq (Cls is_dot) (Rep is_digit 1 None)) (snd (span is_digit s1))
             (fun s2 => bt exponent_re s2 whole))
    with (bt (Cls is_dot) (snd (span is_digit s1))
             (fun s2 => rep_greedy is_digit 1 None s2
                                   (fun s3 => bt exponent_re s3 whole))) in H.
  apply bt_sound in H. destruct H as (_ & s2 & _ & _ & H).
  rewrite (rep_greedy_total is_digit (fun s3 => bt exponent_re s3 whole)) in H
    by (intros; apply exponent_total).
  destruct (1 <=? _)%nat; [|discriminate].
  exact (exponent_end _ _ (span_rest is_digit s2) H).
Qed.

Lemma match_at_rest r s g :
  match_at r s = Some g ->
  exists rest, s = g ++ rest /\ bt r s whole = Some rest.
Proof.
  unfold match_at. fold whole.
  destruct (bt r s whole) as [rest|] eqn:E; [|discriminate].
  intros [= <-]. exists rest. split; [|reflexivity].
  apply bt_sound in E. destruct E as (w & s1 & -> & _ & [= ->]).
  assert (Hn : (length (w ++ rest) - length rest)%nat = length w).
  { rewrite length_app. lia. }
  rewrite Hn, firstn_app, Nat.sub_diag, firstn_all. simpl. now rewrite app_nil_r.
Qed.

(** Each match reported by [scan], with what the matcher left. *)
Lemma scan_rest r s :
  forall pos skip m,
    In m (scan r pos skip s) ->
    exists pre post,
      s = pre ++ group m ++ post
      /\ Z.of_nat (length pre) = start m - pos
      /\ bt r (group m ++ post) whole = Some post.
Proof.
  induction s as [|c s IH]; intros pos skip m H.
  - destruct skip; simpl in H; [|contradiction].
    destruct (match_at r []) as [g|] eqn:E; [|contradiction].
    destruct H as [<-|[]]. simpl.
    apply match_at_rest in E. destruct E as (rest & E & Hb).
    exists [], rest. simpl. rewrite <- E. repeat split; auto. lia.
  - assert (Hstep : forall skip',
               In m (scan r (pos + 1) skip' s) ->
               exists pre post,
                 c :: s = pre ++ group m ++ post
                 /\ Z.of_nat (length pre) = start m - pos
                 /\ bt r (group m ++ post) whole = Some post).
    { intros skip' Hm. apply IH in Hm.
      destruct Hm as (pre & post & -> & Hp & Hb).
      exists (c :: pre), post. simpl. repeat split; auto. lia. }
    destruct skip as [|n]; simpl in H; [|exact (Hstep n H)].
    destruct (match_at r (c :: s)) as [g|] eqn:E; [|exact (Hstep O H)].
    destruct H as [<-|H]; [|exact (Hstep _ H)].
    simpl. apply match_at_rest in E. destruct E as (rest & E & Hb).
    exists [], rest. simpl. rewrite <- E. repeat split; auto. lia.
Qed.

End AltFacts.

(** X11.  The order of the two alternatives of the pattern is without
    effect, and the first alternative is redundant: with the
    alternatives swapped, and with the second alternative alone, the
    matcher finds the same matches in every buffer. *)
Theorem alternatives_agree (data : list byte) :
  FLOAT_RE
  = float_re_with (Alt (digits_dot_digits (Some 3%nat)) (digits_dot_digits None))
  /\ finditer FLOAT_RE_swapped data = finditer FLOAT_RE data
  /\ finditer FLOAT_RE_unbounded data = finditer FLOAT_RE data.
Proof.
  split; [reflexivity|]. unfold finditer. split.
  - apply AltFacts.scan_ext, AltFacts.match_at_ext. intros s k.
    apply (AltFacts.float_re_with_ext
             (Alt (digits_dot_digits None) (digits_dot_digits (Some 3%nat)))
             (Alt (digits_dot_digits (Some 3%nat)) (digits_dot_digits None))).
    intros s1 k1.
    now rewrite (proj1 (AltFacts.alt_is_unbounded s1 k1)),
      (proj2 (AltFacts.alt_is_unbounded s1 k1)).
  - apply AltFacts.scan_ext, AltFacts.match_at_ext. intros s k.
    apply (AltFacts.float_re_with_ext
             (digits_dot_digits None)
             (Alt (digits_dot_digits (Some 3%nat)) (digits_dot_digits None))).
    intros s1 k1.
    now rewrite (proj1 (AltFacts.alt_is_unbounded s1 k1)).
Qed.

(** X12.  No number is cut short: the byte that follows a match in the
    buffer, if there is one, is not a digit. *)
Theorem match_takes_all_digits (data : list byte) :
  Forall (fun m => exists pre post,
              data = pre ++ group m ++ post
              /\ Z.of_nat (length pre) = start m
              /\ no_digit_next post)
         (finditer FLOAT_RE data).
Proof.
  apply Forall_forall. intros m Hm. apply AltFacts.scan_rest in Hm.
  destruct Hm as (pre & post & E & Hp & Hb).
  exists pre, post. repeat split; [exact E | lia |].
  exact (AltFacts.float_end _ _ Hb).
Qed.

(** ** The pattern: nothing is overlooked *)

Module CompleteFacts.

Import ReFacts GrammarFacts MatchFacts.

Lemma rep_greedy_complete p lo hi w :
  rep_lang p lo hi w ->
  forall s k, k s <> None -> rep_greedy p lo hi (w ++ s) k <> None.
Proof.
  induction 1 as [hi | lo hi c w Hp Hm _ IH]; intros s k Hk.
  - simpl. destruct s as [|c s]; [exact Hk|]. simpl.
    destruct (p c && may_take hi); [now apply or_else_right | exact Hk].
  - cbn [app rep_greedy]. rewrite Hp, Hm. cbn [andb].
    apply or_else_left. now apply IH.
Qed.

(** The matcher finds a match wherever a word of the language starts. *)
Lemma bt_complete r w :
  lang r w -> forall s k, k s <> None -> bt r (w ++ s) k <> None.
Proof.
  induction 1 as [p c Hp | r1 r2 w1 w2 _ IH1 _ IH2 | r1 r2 w _ IH
                  | r1 r2 w _ IH | r | r w _ IH | p lo hi w Hw];
    intros s k Hk; cbn [bt].
  - simpl. now rewrite Hp.
  - rewrite <- app_assoc. apply IH1. now apply IH2.
  - apply or_else_left. now apply IH.
  - apply or_else_right. now apply IH.
  - now apply or_else_right.
  - apply or_else_left. now apply IH.
  - now apply rep_greedy_complete.
Qed.

Lemma match_at_complete r w post :
  lang r w -> match_at r (w ++ post) <> None.
Proof.
  intros H. unfold match_at.
  pose proof (bt_complete r w H post (fun rest => Some rest)) as Hb.
  destruct (bt r (w ++ post) _); [discriminate|].
  exfalso. apply Hb; [discriminate | reflexivity].
Qed.

Lemma scan_finds r w post :
  lang r w -> forall pre pos, scan r pos 0 (pre ++ w ++ post) <> [].
Proof.
  intros H. induction pre as [|c pre IH]; intros pos.
  - pose proof (match_at_complete r w post H) as Hm. simpl.
    destruct (w ++ post) as [|c s]; simpl;
      destruct (match_at r _); try discriminate; congruence.
  - simpl. destruct (match_at r (c :: pre ++ w ++ post)); [discriminate|].
    apply IH.
Qed.

Lemma rep_lang_intro p w :
  forall lo hi,
    Forall (fun c => p c = true) w -> (lo <= length w)%nat ->
    (forall h, hi = Some h -> (length w <= h)%nat) ->
    rep_lang p lo hi w.
Proof.
  induction w as [|c w IH]; intros lo hi Hf Hl Hh.
  - simpl in Hl. assert (lo = O) as -> by lia. constructor.
  - inversion Hf as [|? ? Hc Hw]; subst. constructor.
    + exact Hc.
    + destruct hi as [[|h]|]; try reflexivity.
      specialize (Hh O eq_refl). simpl in Hh. lia.
    + apply IH; [exact Hw | simpl in Hl; lia |].
      intros h Eh. destruct hi as [h0|]; [|discriminate].
      injection Eh as <-. specialize (Hh h0 eq_refl). simpl in Hh. lia.
Qed.

Lemma opt_sign_lang sg : opt_sign sg -> lang (Opt (Cls is_sign)) sg.
Proof.
  intros [-> | (c & -> & Hc)]; [apply lang_opt_none|].
  apply lang_opt_some. now constructor.
Qed.

Lemma digits1_lang ds : digits1 ds -> lang (Rep is_digit 1 None) ds.
Proof.
  intros [Hd Hl]. constructor. apply rep_lang_intro; auto. discriminate.
Qed.

(** Every number of the grammar is a word of [FLOAT_RE]. *)
Lemma grammar_FLOAT_RE w : number_grammar w -> lang FLOAT_RE w.
Proof.
  intros (sg & mt & ex & -> & Hsg & (ip & d & fp & -> & Hd & Hfp & Hip) & Hex).
  unfold FLOAT_RE. apply lang_seq; [now apply opt_sign_lang|].
  apply lang_seq.
  - assert (Hfr : lang (Seq (Cls is_dot) (Rep is_digit 1 None)) (d :: fp)).
    { change (d :: fp) with ([d] ++ fp).
      apply lang_seq; [now constructor | now apply digits1_lang]. }
    destruct Hip as [[Hi [H1 H3]] | Hi].
    + apply lang_alt_l. apply lang_seq; [|exact Hfr].
      constructor. apply rep_lang_intro; auto.
      intros h [= <-]. exact H3.
    + apply lang_alt_r. apply lang_seq; [|exact Hfr]. now apply digits1_lang.
  - destruct Hex as [-> | (e & sg2 & ds & -> & He & Hs2 & Hds)];
      [apply lang_opt_none|].
    apply lang_opt_some. change (e :: sg2 ++ ds) with ([e] ++ sg2 ++ ds).
    apply lang_seq; [now constructor|].
    apply lang_seq; [now apply opt_sign_lang | now apply digits1_lang].
Qed.

End CompleteFacts.

(** X13.  The scanner returns at least one float exactly when the
    buffer holds a number of the grammar somewhere; in particular a
    buffer without any such number, for instance one without a dot
    between digits, gives no float. *)
Theorem scanner_finds_iff_number (data : list byte) :
  find_floats_in_bytes data <> []
  <-> exists pre w post, data = pre ++ w ++ post /\ number_grammar w.
Proof.
  split.
  - intros H. destruct (find_floats_in_bytes data) as [|[p v] l] eqn:E;
      [congruence|].
    assert (Hin : In (p, v) (find_floats_in_bytes data)) by (rewrite E; now left).
    apply ScanFacts.floats_loop_in in Hin. destruct Hin as (m & Hm & _ & _).
    pose proof (ScanFacts.match_grammar data m Hm) as Hg.
    apply ReFacts.scan_spec in Hm. destruct Hm as (_ & _ & pre & post & Ed & _).
    exists pre, (group m), post. split; assumption.
  - intros (pre & w & post & -> & Hw) H.
    apply CompleteFacts.grammar_FLOAT_RE in Hw.
    apply (CompleteFacts.scan_finds FLOAT_RE w post Hw pre 0).
    fold (finditer FLOAT_RE (pre ++ w ++ post)).
    pose proof (ScanFacts.scanner_offsets (pre ++ w ++ post)) as Ho.
    rewrite H in Ho. simpl in Ho.
    destruct (finditer FLOAT_RE (pre ++ w ++ post)); [reflexivity | discriminate].
Qed.

(** ** Written numbers read back *)

Module ReadBackFacts.

Import GrammarFacts ParseFacts FormatFacts.

Lemma code_byte_of_ascii a : code (byte_of_ascii a) = N_of_ascii a.
Proof.
  unfold code. apply Byte.to_of_N. symmetry. apply byte_of_ascii_via_N.
Qed.

Lemma bytes_cons a s :
  list_byte_of_string (String a s) = byte_of_ascii a :: list_byte_of_string s.
Proof. reflexivity. Qed.

Lemma is_digit_byte a : is_digit (byte_of_ascii a) = is_digit_char a.
Proof. unfold is_digit, is_digit_char. now rewrite code_byte_of_ascii. Qed.

Lemma digits_bytes t :
  all_digits t = true -> digits (list_byte_of_string t).
Proof.
  induction t as [|a t IH]; intros H; [constructor|].
  simpl in H. apply andb_prop in H. destruct H as [Ha Ht].
  rewrite bytes_cons. constructor; [now rewrite is_digit_byte | now apply IH].
Qed.

Lemma length_bytes t : length (list_byte_of_string t) = String.length t.
Proof.
  induction t as [|a t IH]; [reflexivity|]. rewrite bytes_cons. simpl. now rewrite IH.
Qed.

Lemma value_from_app acc l1 l2 :
  value_from acc (l1 ++ l2) = value_from (value_from acc l1) l2.
Proof. apply fold_left_app. Qed.

Lemma digit_value_char k :
  digit_value (byte_of_ascii (digit_char (k mod 10))) = k mod 10.
Proof.
  unfold digit_value, digit_char. rewrite code_byte_of_ascii.
  pose proof (Z.mod_pos_bound k 10 ltac:(lia)) as Hb.
  rewrite N_ascii_embedding by lia. lia.
Qed.

Lemma value_digits_fixed n :
  forall k acc,
    value_from acc (list_byte_of_string (digits_fixed n k))
    = acc * 10 ^ Z.of_nat n + k mod 10 ^ Z.of_nat n.
Proof.
  induction n as [|n IH]; intros k acc.
  - simpl. rewrite Z.mod_1_r. lia.
  - cbn [digits_fixed]. rewrite list_byte_of_string_app, value_from_app, IH.
    rewrite bytes_cons. simpl list_byte_of_string. unfold value_from at 1.
    simpl fold_left. rewrite digit_value_char.
    rewrite Nat2Z.inj_succ, Z.pow_succ_r by lia.
    rewrite (Z.rem_mul_r k 10 (10 ^ Z.of_nat n)) by lia. lia.
Qed.

(** With enough fuel, [digits_of_fuel] puts the numeral of [k] before
    [acc]. *)
Lemma value_digits_of_fuel fuel :
  forall k acc,
    0 <= k < 10 ^ Z.of_nat fuel ->
    exists pre,
      digits_of_fuel fuel k acc = (pre ++ acc)%string
      /\ value_from 0 (list_byte_of_string pre) = k.
Proof.
  induction fuel as [|fuel IH]; intros k acc Hk.
  - exists EmptyString. simpl in *. split; [reflexivity | lia].
  - cbn [digits_of_fuel].
    assert (Hd : value_from 0 (list_byte_of_string
                                 (String (digit_char (k mod 10)) EmptyString))
                 = k mod 10).
    { rewrite bytes_cons. unfold value_from. simpl. now rewrite digit_value_char. }
    destruct (Z.eqb_spec (k / 10) 0) as [E|E].
    + exists (String (digit_char (k mod 10)) EmptyString). split; [reflexivity|].
      rewrite Hd. pose proof (Z.div_mod k 10 ltac:(lia)). lia.
    + rewrite Nat2Z.inj_succ, Z.pow_succ_r in Hk by lia.
      destruct (IH (k / 10) (String (digit_char (k mod 10)) acc)) as (pre & -> & Hv).
      { split; [apply Z.div_pos; lia | apply Z.div_lt_upper_bound; lia]. }
      exists (pre ++ String (digit_char (k mod 10)) EmptyString)%string. split.
      * clear. induction pre as [|a pre IHp]; [reflexivity|].
        simpl. now rewrite IHp.
      * rewrite list_byte_of_string_app, value_from_app, Hv.
        rewrite bytes_cons. unfold value_from. simpl. rewrite digit_value_char.
        pose proof (Z.div_mod k 10 ltac:(lia)). lia.
Qed.

Lemma value_digits_of k :
  0 <= k -> value_from 0 (list_byte_of_string (digits_of k)) = k.
Proof.
  intros Hk. unfold digits_of.
  destruct (value_digits_of_fuel (S (Z.to_nat (Z.log2 k))) k EmptyString)
    as (pre & -> & Hv).
  - split; [exact Hk|].
    rewrite Nat2Z.inj_succ, Z2Nat.id by apply Z.log2_nonneg.
    destruct (Z.eq_dec k 0) as [->|Hn]; [reflexivity|].
    pose proof (Z.log2_spec k ltac:(lia)) as [_ Hlt].
    apply (Z.lt_le_trans _ _ _ Hlt).
    apply Z.pow_le_mono_l. pose proof (Z.log2_nonneg k). lia.
  - assert (Hnil : forall t : string, (t ++ "")%string = t).
    { induction t as [|a t IHt]; [reflexivity|]. simpl. now rewrite IHt. }
    now rewrite Hnil.
Qed.

Lemma scaled_nonneg m e nd : 0 <= nd -> 0 <= scaled m e nd.
Proof.
  intros Hnd. unfold scaled. destruct (0 <=? e) eqn:E.
  - apply Z.leb_le in E.
    apply Z.mul_nonneg_nonneg; [apply Z.mul_nonneg_nonneg|];
      try lia; apply Z.pow_nonneg; lia.
  - assert (Hq : 0 <= Z.pos m * 10 ^ nd / 2 ^ (- e)).
    { apply Z.div_pos; [|apply Z.pow_pos_nonneg; lia].
      apply Z.mul_nonneg_nonneg; [lia | apply Z.pow_nonneg; lia]. }
    destruct (_ ?= _); [destruct (Z.even _)| |]; lia.
Qed.

(** [float] on a sign, integer digits, a dot and fraction digits. *)
Lemma of_str_decimal (sg : bool) ip d fp :
  digits1 ip -> is_dot d = true -> digits1 fp ->
  of_str (list_byte_of_string (sign_str sg) ++ ip ++ d :: fp)
  = Some (of_decimal sg (value_from 0 (ip ++ fp)) (- Z.of_nat (length fp))).
Proof.
  intros [Hi Hil] Hd [Hf Hfl].
  destruct ip as [|c ip]; [simpl in Hil; lia|].
  inversion Hi as [|? ? Hc Hips]; subst.
  destruct (exists_last (l := fp)) as (fp0 & z & Efp).
  { intros ->. simpl in Hfl. lia. }
  assert (Hz : is_digit z = true).
  { rewrite Efp in Hf. apply Forall_app in Hf. destruct Hf as [_ Hf].
    now inversion Hf. }
  assert (Hstrip : strip (list_byte_of_string (sign_str sg) ++ (c :: ip) ++ d :: fp)
                   = list_byte_of_string (sign_str sg) ++ (c :: ip) ++ d :: fp).
  { rewrite Efp. destruct sg; cbn [sign_str list_byte_of_string app].
    - change (list_byte_of_string "-") with [x2d]. cbn [app].
      replace (c :: ip ++ d :: fp0 ++ [z]) with ((c :: ip ++ d :: fp0) ++ [z])
        by (simpl; rewrite <- app_assoc; reflexivity).
      apply strip_id; [reflexivity | now apply digit_not_space].
    - change (list_byte_of_string "") with (@nil byte). cbn [app].
      replace (ip ++ d :: fp0 ++ [z]) with ((ip ++ d :: fp0) ++ [z])
        by (rewrite <- app_assoc; reflexivity).
      apply strip_id; now apply digit_not_space. }
  unfold of_str. rewrite Hstrip.
  assert (Hsign : take_sign (list_byte_of_string (sign_str sg) ++ (c :: ip) ++ d :: fp)
                  = (sg, c :: ip ++ d :: fp)).
  { destruct sg; cbn [sign_str].
    - reflexivity.
    - change (list_byte_of_string "") with (@nil byte). cbn [app take_sign].
      now destruct (digit_code c Hc) as [-> ->]. }
  rewrite Hsign, !not_word_digit by (auto; simpl; auto). cbn [orb].
  assert (Hn : number (c :: ip ++ d :: fp) = Some (c :: ip, fp, [])).
  { unfold number.
    change (c :: ip ++ d :: fp) with ((c :: ip) ++ d :: fp).
    rewrite digitpart_stop; [| split; assumption | simpl; now apply dot_stops].
    rewrite Hd. rewrite <- (app_nil_r fp) at 1.
    rewrite digitpart_stop; [reflexivity | split; assumption | exact I]. }
  rewrite Hn. cbn [exponent]. reflexivity.
Qed.

End ReadBackFacts.

(** X14.  A written number reads back as the rounded value: for every
    finite [x], [float] of the text of [x] with seven places is
    [round(x, 7)], the value from which the deduplication key is made. *)
Theorem written_number_reads_back (x : float) :
  is_finite x = true ->
  of_str (list_byte_of_string (format_7f x)) = Some (round x 7).
Proof.
  destruct x as [s|s| |s m e]; try discriminate; intros _.
  - destruct s; reflexivity.
  - cbn [format_7f round].
    pose proof (ReadBackFacts.scaled_nonneg m e 7 ltac:(lia)) as Hk.
    set (k := scaled m e 7) in *.
    destruct (FormatFacts.digits_of_ok (k / 10 ^ 7)) as [Hd Hn].
    destruct (FormatFacts.digits_fixed_ok 7 (k mod 10 ^ 7)) as [Hf Hl].
    rewrite !FormatFacts.list_byte_of_string_app.
    change (list_byte_of_string ".") with [x2e]. cbn [app].
    rewrite ReadBackFacts.of_str_decimal.
    + f_equal. f_equal.
      unfold value_from. rewrite fold_left_app.
        fold (value_from 0 (list_byte_of_string (digits_of (k / 10 ^ 7)))).
        rewrite ReadBackFacts.value_digits_of by (apply Z.div_pos; lia).
        fold (value_from (k / 10 ^ 7)
                (list_byte_of_string (digits_fixed 7 (k mod 10 ^ 7)))).
        rewrite ReadBackFacts.value_digits_fixed.
        change (Z.of_nat 7) with 7. rewrite Z.mod_mod by lia.
        pose proof (Z.div_mod k (10 ^ 7) ltac:(lia)). lia.
    + split; [now apply ReadBackFacts.digits_bytes|].
      rewrite ReadBackFacts.length_bytes.
      destruct (digits_of (k / 10 ^ 7)); [congruence | simpl; lia].
    + reflexivity.
    + split; [now apply ReadBackFacts.digits_bytes|].
      rewrite ReadBackFacts.length_bytes, Hl. lia.
Qed.

Lemma written_number_reads_back_witness :
  is_finite target_lon = true
  /\ of_str (list_byte_of_string (format_7f target_lon)) = Some (round target_lon 7).
Proof.
  assert (H : is_finite target_lon = true) by reflexivity.
  split; [exact H|].
  exact (written_number_reads_back target_lon H).
Defined.

(** ** Scanned values are numbers *)

Module NanFacts.

Import GrammarFacts ParseFacts.

Lemma iter_pos_inv {A} (P : A -> Prop) (f : A -> A) :
  (forall x, P x -> P (f x)) ->
  forall p x, P x -> P (iter_pos f p x).
Proof.
  intros Hf. induction p as [p IH | p IH |]; intros x Hx; simpl; auto.
Qed.

Lemma shr_1_nonneg mrs : 0 <= shr_m mrs -> 0 <= shr_m (shr_1 mrs).
Proof.
  destruct mrs as [m r s]. simpl.
  destruct m as [|[p|p|]|[p|p|]]; simpl; lia.
Qed.

Lemma shr_nonneg mrs e n : 0 <= shr_m mrs -> 0 <= shr_m (fst (shr mrs e n)).
Proof.
  intros H. unfold shr. destruct n as [|p|p]; simpl; auto.
  apply (iter_pos_inv (fun x => 0 <= shr_m x)); auto using shr_1_nonneg.
Qed.

Lemma shr_fexp_nonneg m e l :
  0 <= m -> 0 <= shr_m (fst (shr_fexp prec emax m e l)).
Proof.
  intros H. unfold shr_fexp. apply shr_nonneg.
  destruct l as [|[| |]]; exact H.
Qed.

Lemma round_nearest_even_nonneg m l : 0 <= m -> 0 <= round_nearest_even m l.
Proof.
  intros H. unfold round_nearest_even.
  destruct l as [|[| |]]; try destruct (Z.even m); lia.
Qed.

(** Rounding a mantissa that is not negative never gives nan. *)
Lemma binary_round_aux_not_nan sx mx ex lx :
  0 <= mx -> binary_round_aux prec emax sx mx ex lx <> S754_nan.
Proof.
  intros H. unfold binary_round_aux.
  pose proof (shr_fexp_nonneg mx ex lx H) as H1.
  destruct (shr_fexp prec emax mx ex lx) as [mrs' e'].
  simpl in H1.
  pose proof (shr_fexp_nonneg _ e' loc_Exact
                (round_nearest_even_nonneg _ (loc_of_shr_record mrs') H1)) as H2.
  destruct (shr_fexp prec emax _ e' loc_Exact) as [mrs'' e''].
  simpl in H2. destruct (shr_m mrs'') as [|p|p]; try discriminate; [|lia].
  destruct (e'' <=? emax - prec); discriminate.
Qed.

Lemma binary_round_not_nan sx mx ex : binary_round prec emax sx mx ex <> S754_nan.
Proof.
  unfold binary_round. destruct (shl_align _ _ _) as [mz ez].
  apply binary_round_aux_not_nan. lia.
Qed.

Lemma div_not_nan sx mx ex sy my ey :
  SFdiv prec emax (S754_finite sx mx ex) (S754_finite sy my ey) <> S754_nan.
Proof.
  unfold SFdiv, SFdiv_core_binary.
  set (m' := match _ with Z.pos _ => _ | Z0 => _ | Z.neg _ => _ end).
  assert (Hm : 0 <= m').
  { subst m'. destruct (_ - _ - _); try lia. apply Z.shiftl_nonneg. lia. }
  destruct (Z.div_eucl m' (Z.pos my)) as [q r] eqn:E.
  assert (Hq : q = m' / Z.pos my) by (unfold Z.div; now rewrite E).
  apply binary_round_aux_not_nan. rewrite Hq. apply Z.div_pos; lia.
Qed.

(** A decimal literal never denotes nan. *)
Lemma of_decimal_not_nan s m e : of_decimal s m e <> S754_nan.
Proof.
  unfold of_decimal. destruct m as [|p|p]; try discriminate.
  destruct (0 <=? e); [apply binary_round_not_nan | apply div_not_nan].
Qed.

(** A number of the grammar starts, after its sign, with a digit. *)
Lemma token_body w :
  number_grammar w ->
  exists b c r, is_digit c = true /\ take_sign (strip w) = (b, c :: r).
Proof.
  intros (sg & mt & ex & -> & Hsg & (ip & d & fp & -> & Hd & Hfp & Hip) & Hex).
  assert (Hi : digits1 ip).
  { destruct Hip as [[H [H1 _]] | H]; [split|]; assumption. }
  destruct Hi as [Hid Hil]. destruct ip as [|c ip]; [simpl in Hil; lia|].
  inversion Hid as [|? ? Hc Hips]; subst.
  assert (Hend : exists s z, sg ++ ((c :: ip) ++ d :: fp) ++ ex = s ++ [z]
                             /\ is_digit z = true).
  { destruct Hex as [-> | (e & sg2 & ds & -> & _ & _ & Hds)].
    - rewrite app_nil_r.
      replace (sg ++ (c :: ip) ++ d :: fp) with ((sg ++ (c :: ip) ++ [d]) ++ fp)
        by (rewrite <- !app_assoc; reflexivity).
      now apply ends_with_digit.
    - replace (sg ++ ((c :: ip) ++ d :: fp) ++ e :: sg2 ++ ds)
        with ((sg ++ ((c :: ip) ++ d :: fp) ++ e :: sg2) ++ ds)
        by (rewrite <- !app_assoc; reflexivity).
      now apply ends_with_digit. }
  destruct Hend as (s & z & Es & Hz).
  assert (Hstrip : strip (sg ++ ((c :: ip) ++ d :: fp) ++ ex)
                   = sg ++ ((c :: ip) ++ d :: fp) ++ ex).
  { rewrite Es. destruct s as [|a s].
    - simpl. unfold strip. simpl. rewrite (digit_not_space z Hz). simpl.
      now rewrite (digit_not_space z Hz).
    - apply strip_id; [|now apply digit_not_space].
      destruct Hsg as [-> | (sc & -> & Hsc)]; simpl in Es;
        injection Es as <- _.
      + now apply digit_not_space.
      + now apply sign_not_space. }
  rewrite Hstrip, <- !app_assoc. cbn [app].
  destruct (take_sign_opt sg c (ip ++ d :: fp ++ ex) Hsg Hc) as [b Hb].
  exists b, c, (ip ++ d :: fp ++ ex). split; assumption.
Qed.

Lemma of_str_digit_not_nan s b c r v :
  is_digit c = true -> take_sign (strip s) = (b, c :: r) ->
  of_str s = Some v -> v <> S754_nan.
Proof.
  intros Hc Hs. unfold of_str. rewrite Hs.
  rewrite !not_word_digit by (auto; simpl; auto). cbn [orb].
  destruct (number (c :: r)) as [[[ip fp] r']|]; [|discriminate].
  destruct (exponent r') as [ex [|x l]]; [|discriminate].
  intros [= <-]. apply of_decimal_not_nan.
Qed.

End NanFacts.

(** X15.  The scanner never yields nan: every scanned value is a
    number or an infinity, so it compares equal to itself. *)
Theorem scanned_values_not_nan (data : list byte) :
  Forall (fun pv => snd pv <> S754_nan /\ eqb (snd pv) (snd pv) = true)
         (find_floats_in_bytes data).
Proof.
  apply Forall_forall. intros [p v] H. simpl.
  apply ScanFacts.floats_loop_in in H. destruct H as (m & Hm & _ & Hv).
  unfold token_value in Hv. rewrite (ScanFacts.match_decodes data m Hm) in Hv.
  destruct (NanFacts.token_body _ (ScanFacts.match_grammar data m Hm))
    as (b & c & r & Hc & Hs).
  pose proof (NanFacts.of_str_digit_not_nan _ b c r v Hc Hs Hv) as Hn.
  split; [exact Hn | now apply FloatFacts.eqb_refl_not_nan].
Qed.

(** ** The start of a match *)

Module StartFacts.

Import ReFacts GrammarFacts MatchFacts AltFacts.

Lemma digit_not_sign c : is_digit c = true -> is_sign c = false.
Proof.
  intros Hc. unfold is_sign. now destruct (digit_code c Hc) as [-> ->].
Qed.

(** At a digit the pattern reads the whole run of digits and goes on
    with the dot. *)
Lemma bt_float_digit c s k :
  is_digit c = true ->
  bt FLOAT_RE (c :: s) k
  = bt (Seq (Cls is_dot) (Rep is_digit 1 None)) (snd (span is_digit s))
       (fun s2 => bt exponent_re s2 k).
Proof.
  intros Hc.
  change (bt FLOAT_RE (c :: s) k)
    with (or_else
            (if is_sign c
             then bt (Alt (digits_dot_digits (Some 3%nat)) (digits_dot_digits None))
                     s (fun s2 => bt exponent_re s2 k)
             else None)
            (bt (Alt (digits_dot_digits (Some 3%nat)) (digits_dot_digits None))
                (c :: s) (fun s2 => bt exponent_re s2 k))).
  rewrite (digit_not_sign c Hc). cbn [or_else].
  rewrite (proj1 (alt_is_unbounded (c :: s) _)), bt_digits_dot_digits.
  cbn [span]. rewrite Hc. destruct (span is_digit s) as [run rest].
  reflexivity.
Qed.

(** A failure at a digit that is followed by a digit is a failure at
    the next position too. *)
Lemma fail_moves_on c d s :
  is_digit c = true -> is_digit d = true ->
  match_at FLOAT_RE (c :: d :: s) = None -> match_at FLOAT_RE (d :: s) = None.
Proof.
  intros Hc Hd. unfold match_at.
  rewrite (bt_float_digit c (d :: s) _ Hc), (bt_float_digit d s _ Hd).
  cbn [span]. rewrite Hd. destruct (span is_digit s) as [run rest]. cbn [snd].
  destruct (bt _ rest _); [discriminate | reflexivity].
Qed.

Lemma grammar_nonempty w : number_grammar w -> w <> [].
Proof.
  intros (sg & mt & ex & -> & _ & (ip & d & fp & -> & _) & _) H.
  apply app_eq_nil in H. destruct H as [_ H].
  apply app_eq_nil in H. destruct H as [H _].
  apply app_eq_nil in H. destruct H as [_ H]. discriminate.
Qed.

Lemma last_ok_cons prev c pre : last_ok (is_digit c) pre -> last_ok prev (c :: pre).
Proof.
  unfold last_ok. simpl. destruct (rev pre) as [|x t]; simpl; auto.
Qed.

Lemma inv_after_digits c s :
  no_digit_next s -> scan_inv (is_digit c) 0 s.
Proof.
  intros Hn _ Hd. destruct s as [|d s]; [contradiction|].
  simpl in *. congruence.
Qed.

Lemma scan_starts s :
  forall pos skip prev m,
    scan_inv prev skip s ->
    In m (scan FLOAT_RE pos skip s) ->
    exists pre post,
      s = pre ++ group m ++ post
      /\ Z.of_nat (length pre) = start m - pos
      /\ (digit_first (group m) -> last_ok prev pre).
Proof.
  induction s as [|c s IH]; intros pos skip prev m Hinv H.
  - destruct skip; simpl in H; contradiction.
  - assert (Hstep : forall skip',
               scan_inv (is_digit c) skip' s ->
               In m (scan FLOAT_RE (pos + 1) skip' s) ->
               exists pre post,
                 c :: s = pre ++ group m ++ post
                 /\ Z.of_nat (length pre) = start m - pos
                 /\ (digit_first (group m) -> last_ok prev pre)).
    { intros skip' Hi Hm. destruct (IH _ _ _ _ Hi Hm) as (pre & post & -> & Hp & Hl).
      exists (c :: pre), post. simpl. repeat split; [lia|].
      intros Hd. apply last_ok_cons. now apply Hl. }
    destruct skip as [|n]; simpl in H.
    + destruct (match_at FLOAT_RE (c :: s)) as [g|] eqn:E.
      * pose proof (match_at_rest _ _ _ E) as (rest & Es & Hb).
        pose proof (float_end _ _ Hb) as Hend.
        destruct H as [<-|H].
        -- exists [], rest. simpl. repeat split; [exact Es | lia |].
           intros Hd. unfold last_ok. simpl.
           destruct prev; [|reflexivity]. exfalso.
           assert (Hnone : match_at FLOAT_RE (c :: s) = None).
           { apply Hinv; [reflexivity|]. rewrite Es.
             destruct g; [contradiction | exact Hd]. }
           congruence.
        -- apply (Hstep _) in H; [exact H|].
           assert (Hg : g <> []).
           { apply grammar_nonempty, FLOAT_RE_grammar.
             now apply match_at_sound in E. }
           destruct g as [|x g]; [congruence|].
           injection Es as _ ->. simpl length. cbn [Nat.pred].
           destruct g as [|y g]; [now apply inv_after_digits|].
           simpl length. unfold scan_inv.
           change (S (length g)) with (length (y :: g)).
           now rewrite skipn_app, skipn_all, Nat.sub_diag.
      * apply (Hstep O); [|exact H].
        intros Hc Hd. destruct s as [|d s]; [contradiction|].
        simpl in Hd. exact (fail_moves_on c d s Hc Hd E).
    + apply (Hstep n); [|exact H].
      destruct n as [|n]; [now apply inv_after_digits|]. exact Hinv.
Qed.

End StartFacts.

(** X16.  The integer digits of a number are never cut: when a match
    starts with a digit, the byte before it in the buffer, if there is
    one, is not a digit. *)
Theorem match_starts_at_first_digit (data : list byte) :
  Forall (fun m => exists pre post,
              data = pre ++ group m ++ post
              /\ Z.of_nat (length pre) = start m
              /\ (digit_first (group m) -> no_digit_next (rev pre)))
         (finditer FLOAT_RE data).
Proof.
  apply Forall_forall. intros m Hm.
  destruct (StartFacts.scan_starts data 0 0%nat false m) as (pre & post & E & Hp & Hl).
  - intros H. discriminate.
  - exact Hm.
  - exists pre, post. repeat split; [exact E | lia |].
    intros Hd. specialize (Hl Hd). unfold last_ok in Hl.
    destruct (rev pre); [exact I | exact Hl].
Qed.

(** ** Where a selection comes from *)

Module OriginFacts.

Lemma in_emit_values c p1 p2 v1 v2 :
  In c (emit p1 p2 v1 v2 []) ->
  (cp_lon c = v1 /\ cp_lat c = v2) \/ (cp_lon c = v2 /\ cp_lat c = v1).
Proof.
  rewrite PairFacts.emit_nil. intros H. apply in_app_or in H.
  destruct H as [H | H].
  - destruct (lon_ok v1 && lat_ok v2); [|contradiction].
    destruct H as [<- | []]. left. split; reflexivity.
  - destruct (lon_ok v2 && lat_ok v1); [|contradiction].
    destruct H as [<- | []]. right. split; reflexivity.
Qed.

End OriginFacts.

(** X17.  Whatever a run selects comes from the buffer: the two
    offsets of the selection are the starts of two matches, the first
    before the second and at most 300 bytes apart, the longitude and the
    latitude are the values of these two tokens in one of the two
    orders, and both lie in their ranges. *)
Theorem selection_comes_from_buffer (data : list byte) (c : candidate) :
  choose data = Some c ->
  exists m1 m2,
    In m1 (finditer FLOAT_RE data) /\ In m2 (finditer FLOAT_RE data)
    /\ start m1 = cand_pos1 c /\ start m2 = cand_pos2 c
    /\ cand_pos1 c < cand_pos2 c <= cand_pos1 c + 300
    /\ ((token_value m1 = Some (cand_lon c) /\ token_value m2 = Some (cand_lat c))
        \/ (token_value m1 = Some (cand_lat c) /\ token_value m2 = Some (cand_lon c)))
    /\ lon_ok (cand_lon c) = true /\ lat_ok (cand_lat c) = true.
Proof.
  unfold choose. intros H. apply SelectFacts.in_select in H.
  apply DedupFacts.in_dedup in H. destruct H as (d & Hd & ->).
  rewrite DedupFacts.to_candidate_pos1, DedupFacts.to_candidate_pos2,
    DedupFacts.to_candidate_lon, DedupFacts.to_candidate_lat.
  pose proof (PairFacts.in_find_range d _ _ Hd) as [Hlon Hlat].
  pose proof (PairFacts.in_find_offsets d _ _ (ScanFacts.scanner_increasing data) Hd)
    as [Hlt Hw].
  apply PairFacts.in_find in Hd.
  destruct Hd as (i & j & p1 & v1 & p2 & v2 & _ & Hi & Hj & _ & He).
  pose proof (OriginFacts.in_emit_values _ _ _ _ _ He) as Hv.
  apply PairFacts.in_emit in He. destruct He as (E1 & E2 & _).
  apply nth_error_In, ScanFacts.floats_loop_in in Hi.
  apply nth_error_In, ScanFacts.floats_loop_in in Hj.
  destruct Hi as (m1 & Hm1 & Hs1 & Ht1), Hj as (m2 & Hm2 & Hs2 & Ht2).
  exists m1, m2. unfold window in Hw.
  repeat split; try assumption; try congruence; try lia.
  destruct Hv as [[-> ->] | [-> ->]]; [left | right]; split; assumption.
Qed.

Lemma selection_comes_from_buffer_witness :
  choose (of_string "1.5 2.5 99.5") = Some (dec 15 (-1), dec 25 (-1), 0, 4)
  /\ exists m1 m2,
      In m1 (finditer FLOAT_RE (of_string "1.5 2.5 99.5"))
      /\ In m2 (finditer FLOAT_RE (of_string "1.5 2.5 99.5"))
      /\ start m1 = 0 /\ start m2 = 4.
Proof.
  assert (H : choose (of_string "1.5 2.5 99.5")
              = Some (dec 15 (-1), dec 25 (-1), 0, 4)) by (vm_compute; reflexivity).
  split; [exact H|].
  destruct (selection_comes_from_buffer _ _ H)
    as (m1 & m2 & H1 & H2 & S1 & S2 & _).
  exists m1, m2. repeat split; assumption.
Defined.

(** ** The written numbers show the selected values *)

Module ShownFacts.

Import FormatFacts ReadBackFacts.

Lemma numeral_from_bytes t :
  forall acc, numeral_from acc t = value_from acc (list_byte_of_string t).
Proof.
  induction t as [|c t IH]; intros acc; [reflexivity|].
  rewrite bytes_cons. cbn [numeral_from]. unfold value_from. cbn [fold_left].
  fold (value_from (acc * 10 + digit_value (byte_of_ascii c))
                   (list_byte_of_string t)).
  rewrite IH. unfold digit_value. now rewrite code_byte_of_ascii.
Qed.

(** The digits written for [k] denote [k]. *)
Lemma numeral_written k :
  0 <= k ->
  numeral (digits_of (k / 10 ^ 7) ++ digits_fixed 7 (k mod 10 ^ 7)) = k.
Proof.
  intros Hk. unfold numeral.
  rewrite numeral_from_bytes, list_byte_of_string_app, value_from_app.
  rewrite value_digits_of by (apply Z.div_pos; lia).
  rewrite value_digits_fixed. change (Z.of_nat 7) with 7.
  rewrite Z.mod_mod by lia.
  pose proof (Z.div_mod k (10 ^ 7) ltac:(lia)). lia.
Qed.

Lemma digit_char_not_zero d : 0 < d < 10 -> digit_char d <> "0"%char.
Proof.
  intros Hd E. apply (f_equal N_of_ascii) in E. unfold digit_char in E.
  rewrite N_ascii_embedding in E by lia.
  change (N_of_ascii "0") with 48%N in E. lia.
Qed.

(** With enough fuel the numeral of a positive number starts with a
    digit other than zero. *)
Lemma lead_digits_of_fuel fuel :
  forall k acc,
    0 < k < 10 ^ Z.of_nat fuel ->
    exists c r, digits_of_fuel fuel k acc = String c r /\ c <> "0"%char.
Proof.
  induction fuel as [|fuel IH]; intros k acc Hk; [simpl in Hk; lia|].
  cbn [digits_of_fuel]. rewrite Nat2Z.inj_succ, Z.pow_succ_r in Hk by lia.
  destruct (Z.eqb_spec (k / 10) 0) as [E|E].
  - exists (digit_char (k mod 10)), acc. split; [reflexivity|].
    apply digit_char_not_zero.
    pose proof (Z.div_mod k 10 ltac:(lia)).
    pose proof (Z.mod_pos_bound k 10 ltac:(lia)). lia.
  - apply IH. split.
    + pose proof (Z.div_pos k 10 ltac:(lia) ltac:(lia)). lia.
    + apply Z.div_lt_upper_bound; lia.
Qed.

Lemma digits_of_no_leading_zero k : 0 <= k -> no_leading_zero (digits_of k).
Proof.
  intros Hk. destruct (Z.eq_dec k 0) as [->|Hn]; [left; reflexivity|].
  right. unfold digits_of. apply lead_digits_of_fuel. split; [lia|].
  rewrite Nat2Z.inj_succ, Z2Nat.id by apply Z.log2_nonneg.
  pose proof (Z.log2_spec k ltac:(lia)) as [_ Hlt].
  apply (Z.lt_le_trans _ _ _ Hlt).
  apply Z.pow_le_mono_l. pose proof (Z.log2_nonneg k). lia.
Qed.

(** [scaled] rounds to the nearest integer, ties to even. *)
Lemma scaled_nearest m e : nearest_in_seventh_place m e (scaled m e 7).
Proof.
  unfold nearest_in_seventh_place, scaled.
  destruct (Z.leb_spec 0 e) as [He|He].
  - rewrite (Z.max_r 0 e), (Z.max_l 0 (- e)) by lia.
    change (2 ^ 0) with 1. rewrite Z.mul_1_r, Z.sub_diag. simpl. split; lia.
  - rewrite (Z.max_l 0 e), (Z.max_r 0 (- e)) by lia.
    change (2 ^ 0) with 1. rewrite Z.mul_1_r.
    set (D := 2 ^ (- e)). set (N := Z.pos m * 10 ^ 7).
    assert (HD : 0 < D) by (apply Z.pow_pos_nonneg; lia).
    pose proof (Z.div_mod N D ltac:(lia)) as Hdm.
    pose proof (Z.mod_pos_bound N D HD) as Hr.
    set (q := N / D) in *. set (r := N mod D) in *.
    assert (E0 : q * D - N = - r) by lia.
    assert (E1 : (q + 1) * D - N = D - r) by lia.
    destruct (Z.compare_spec (2 * r) D) as [Ht|Hlt|Hgt].
    + destruct (Z.even q) eqn:Eq.
      * rewrite E0. split; [lia | intros _; exact Eq].
      * rewrite E1. split; [lia|]. intros _.
        rewrite Z.even_add, Eq. reflexivity.
    + rewrite E0. split; lia.
    + rewrite E1. split; lia.
Qed.

(** The text of a finite value shows it to seven decimal places. *)
Lemma format_7f_shows x :
  is_finite x = true -> shows_to_seven_places x (format_7f x).
Proof.
  destruct x as [s|s| |s m e]; try discriminate; intros _.
  - destruct s; reflexivity.
  - cbn [shows_to_seven_places format_7f].
    pose proof (scaled_nonneg m e 7 ltac:(lia)) as Hk.
    destruct (digits_of_ok (scaled m e 7 / 10 ^ 7)) as [Hd _].
    destruct (digits_fixed_ok 7 (scaled m e 7 mod 10 ^ 7)) as [Hf Hl].
    exists (digits_of (scaled m e 7 / 10 ^ 7)),
      (digits_fixed 7 (scaled m e 7 mod 10 ^ 7)).
    split; [destruct s; reflexivity|].
    split; [exact Hd|].
    split; [apply digits_of_no_leading_zero, Z.div_pos; lia|].
    split; [exact Hf|]. split; [exact Hl|].
    rewrite (numeral_written _ Hk). apply scaled_nearest.
Qed.

End ShownFacts.

(** C8.  For every selection, the text written to the freshly opened
    output file is exactly one of two: when a candidate was selected,
    the line [longitude,latitude] and one line with the longitude, a
    comma and the latitude, each written with exactly seven decimal
    places and showing the selected value rounded to the seventh place;
    when none was, the single line [No longitude/latitude found in]
    followed by the input path, and no header.  A selected candidate has
    its longitude and latitude in range. *)
Theorem output_text_shapes (f1 : fs) (out inp : string)
        (chosen : option candidate) :
  f1 out = Some (File []) ->
  (forall c, chosen = Some c ->
             lon_ok (cand_lon c) = true /\ lat_ok (cand_lat c) = true) ->
  match chosen with
  | Some c =>
      files (write_result f1 out inp chosen) out
      = Some (File (list_byte_of_string
                      ("longitude,latitude" ++ nl
                       ++ format_7f (cand_lon c) ++ "," ++ format_7f (cand_lat c)
                       ++ nl)))
      /\ seven_places (format_7f (cand_lon c))
      /\ seven_places (format_7f (cand_lat c))
      /\ shows_to_seven_places (cand_lon c) (format_7f (cand_lon c))
      /\ shows_to_seven_places (cand_lat c) (format_7f (cand_lat c))
  | None =>
      files (write_result f1 out inp chosen) out
      = Some (File (list_byte_of_string
                      ("No longitude/latitude found in " ++ inp ++ nl)))
  end.
Proof.
  intros Hempty Hrange. destruct chosen as [c|].
  - destruct (Hrange c eq_refl) as [Hlon Hlat].
    apply FloatFacts.lon_ok_finite in Hlon. apply FloatFacts.lat_ok_finite in Hlat.
    split; [now apply RunFacts.write_result_some|].
    split; [now apply FormatFacts.format_7f_finite|].
    split; [now apply FormatFacts.format_7f_finite|].
    split; now apply ShownFacts.format_7f_shows.
  - now apply RunFacts.write_result_none.
Qed.

Lemma output_text_shapes_witness :
  update clip_fs "out.txt" (File []) "out.txt"%string = Some (File [])
  /\ (forall c, Some near_b = Some c ->
                lon_ok (cand_lon c) = true /\ lat_ok (cand_lat c) = true)
  /\ files (write_result (update clip_fs "out.txt" (File []))
                         "out.txt" "clip.mov" (Some near_b)) "out.txt"%string
     = Some (File (list_byte_of_string
                     ("longitude,latitude" ++ nl
                      ++ format_7f (cand_lon near_b) ++ ","
                      ++ format_7f (cand_lat near_b) ++ nl)))
  /\ seven_places (format_7f (cand_lon near_b))
  /\ seven_places (format_7f (cand_lat near_b))
  /\ shows_to_seven_places (cand_lon near_b) (format_7f (cand_lon near_b))
  /\ shows_to_seven_places (cand_lat near_b) (format_7f (cand_lat near_b))
  /\ files (write_result (update clip_fs "out.txt" (File []))
                         "out.txt" "clip.mov" (Some near_b)) "out.txt"%string
     = Some (File (list_byte_of_string
                     ("longitude,latitude" ++ nl
                      ++ "-122.0591000,37.9361000" ++ nl))).
Proof.
  assert (H1 : update clip_fs "out.txt" (File []) "out.txt"%string = Some (File []))
    by reflexivity.
  assert (H2 : forall c, Some near_b = Some c ->
                         lon_ok (cand_lon c) = true /\ lat_ok (cand_lat c) = true).
  { intros c [= <-]. split; vm_compute; reflexivity. }
  split; [exact H1|]. split; [exact H2|].
  pose proof (output_text_shapes (update clip_fs "out.txt" (File []))
                                 "out.txt" "clip.mov" (Some near_b) H1 H2)
    as (T1 & T2 & T3 & T4 & T5).
  repeat split; assumption.
Defined.
